(** * Instance Lifecycle Manager (instanceManager.js)

    A shallow embedding of the manager's state, of its lifecycle
    primitives and of its operation queue, followed by the properties
    established about them.

    Conventions of the embedding.
    - The two process-wide [Map]s ([instances], [qrCodes]) are finite maps
      keyed by the instance id.  A [Client] object is a mutable heap
      object: the Registry stores a reference ([Handle]) to it, and the
      object itself lives in [clients].
    - Everything the module does to the outside (calls into the external
      client, status pushes to the database, file removals, sleeps, the
      process kill) is appended, in program order, to [effects].
    - What the outside answers (does [initialize()] reject, which events
      does the client emit, does [rmSync] throw on a given attempt) is an
      explicit argument of the operation that asks.
    - An [async] function is first given as run to completion in one go:
      between its [await]s nothing but the awaited call and the client's
      reactions to it takes place.  Where what else runs at an [await]
      matters, a second definition writes those turns of the event loop
      out ([resetBodyTurns], [restartInstanceTurns]).  In the operation
      queue the interleaving of callers, settlements and timers is what
      matters throughout, and it is a machine that takes one event at a
      time.
    - A path is the list of its segments, and [path_join] normalises as
      [path.join] does; an instance id is any string, and only a plain
      one names an entry of its own.
    - The figures of the admission check are doubles.
    - [createInstance] is the function for an id that the library takes
      as a client id; [createInstanceCall] puts the library's check in
      front of it.  The files the browser writes under the session root
      are not part of the state.
    - Console output is not part of the model. *)

From Stdlib Require Import QArith Floats Ascii.
From stdpp Require Import gmap strings list fin_maps.

Open Scope string_scope.
Open Scope list_scope.
Open Scope nat_scope.

(** ** Values and external vocabulary *)

(** The JavaScript values that cross the module boundary. *)
Inductive JsVal :=
  | JNull
  | JUndefined
  | JBool (b : bool)
  | JStr (s : string).

(** How a promise settles. *)
Inductive Outcome (V : Type) :=
  | Fulfilled (v : V)
  | Rejected (err : string).
Arguments Fulfilled {V} v.
Arguments Rejected {V} err.

(** An absolute, normalised path is the list of its segments. *)
Definition Path := list string.

(** The pieces of a string between its [/] separators. *)
Fixpoint splitSegments (s : string) : list string :=
  match s with
  | EmptyString => [""]
  | String c rest =>
    if Ascii.eqb c "/"%char then "" :: splitSegments rest
    else
      match splitSegments rest with
      | seg :: segs => String c seg :: segs
      | [] => [String c ""]
      end
  end.

(** One step of the normalisation [path.join] applies: an empty piece and
    [.] are dropped, [..] removes the last segment (the root stays the
    root), anything else is appended. *)
Definition joinSegment (p : Path) (seg : string) : Path :=
  if String.eqb seg "" then p
  else if String.eqb seg "." then p
  else if String.eqb seg ".." then removelast p
  else p ++ [seg].

(** [path.join(base, s)] on POSIX, for a normalised absolute [base]. *)
Definition path_join (base : Path) (s : string) : Path :=
  foldl joinSegment base (splitSegments s).



(** A reference to a [Client] object. *)
Definition Handle := nat.

(** The readable [info] object of the external client.  A field that is
    [None] is [undefined] in the object. *)
Record ClientInfo := {
  wid : option string;
  number : option string;
  pushname : option string;
  profile_pic : option string;
  status : option string
}.

(** The empty object literal. *)
Definition emptyInfo : ClientInfo :=
  {| wid := None; number := None; pushname := None; profile_pic := None;
     status := None |}.

(** A [Client] as the manager sees it: the [LocalAuth] configuration it was
    built with, the library's [info] field (absent until the library sets
    it) and the [isInitializing] flag the manager adds.  [boundId] is the
    [id] captured by the listeners that [createInstance] registers. *)
Record Client := {
  boundId : string;
  authDataPath : Path;
  info : option ClientInfo;
  isInitializing : bool
}.

(** Events of the external client the manager listens to. *)
Inductive ClientEvent :=
  | EvQr (qr : string)
  | EvReady
  | EvAuthenticated
  | EvDisconnected (reason : string)
  | EvDebug (msg : string)
  | EvAuthFailure (msg : string).

(** What the external client does by itself while one of its calls is
    pending: it fills in its [info] field, or it emits an event. *)
Inductive ClientAction :=
  | SetInfo (i : ClientInfo)
  | Emit (ev : ClientEvent).

(** Observable effects, in program order. *)
Inductive Effect :=
  | EInitialize (h : Handle)
  | EDestroy (h : Handle)
  | ELogout (h : Handle)
  | EStatus (instanceId st : string) (num name pic : option string)
  | ERmSync (p : Path) (ok : bool)
  | EDelay (ms : nat)
  | EPkill (instanceId : string).

(** ** Module state *)

Record World := {
  instances : gmap string Handle;
  qrCodes : gmap string string;
  clients : gmap Handle Client;
  nextHandle : Handle;
  fs : gset Path;
  effects : list Effect
}.

Definition emptyWorld : World :=
  {| instances := ∅; qrCodes := ∅; clients := ∅; nextHandle := 0;
     fs := ∅; effects := [] |}.

Definition withInstances (f : gmap string Handle → gmap string Handle)
    (w : World) : World :=
  {| instances := f (instances w); qrCodes := qrCodes w;
     clients := clients w; nextHandle := nextHandle w; fs := fs w;
     effects := effects w |}.

Definition withQrCodes (f : gmap string string → gmap string string)
    (w : World) : World :=
  {| instances := instances w; qrCodes := f (qrCodes w);
     clients := clients w; nextHandle := nextHandle w; fs := fs w;
     effects := effects w |}.

Definition withClients (f : gmap Handle Client → gmap Handle Client)
    (w : World) : World :=
  {| instances := instances w; qrCodes := qrCodes w;
     clients := f (clients w); nextHandle := nextHandle w; fs := fs w;
     effects := effects w |}.

Definition withFs (f : gset Path → gset Path) (w : World) : World :=
  {| instances := instances w; qrCodes := qrCodes w;
     clients := clients w; nextHandle := nextHandle w; fs := f (fs w);
     effects := effects w |}.

Definition logEffect (e : Effect) (w : World) : World :=
  {| instances := instances w; qrCodes := qrCodes w;
     clients := clients w; nextHandle := nextHandle w; fs := fs w;
     effects := effects w ++ [e] |}.

(** [new Client(...)]: a fresh object on the heap. *)
Definition allocClient (c : Client) (w : World) : Handle * World :=
  (nextHandle w,
   {| instances := instances w; qrCodes := qrCodes w;
      clients := <[nextHandle w := c]> (clients w);
      nextHandle := S (nextHandle w); fs := fs w;
      effects := effects w |}).

(** ** Helpers *)

(** [fs.existsSync]. *)
Definition existsSync (p : Path) (w : World) : bool :=
  bool_decide (p ∈ fs w).

(** A successful [fs.rmSync(p, { recursive: true, force: true })]: the
    entry and everything below it are gone. *)
Definition rmTree (p : Path) (files : gset Path) : gset Path :=
  filter (λ q, ¬ p `prefix_of` q) files.

Definition rmSyncOk (p : Path) (w : World) : World :=
  logEffect (ERmSync p true) (withFs (rmTree p) w).

(** An [rmSync] that throws (a file is still locked): nothing is removed. *)
Definition rmSyncThrows (p : Path) (w : World) : World :=
  logEffect (ERmSync p false) w.

(** [delay(ms)]. *)
Definition delay (ms : nat) (w : World) : World := logEffect (EDelay ms) w.

(** [x || null] on an optional string: the empty string is falsy too. *)
Definition orNull (o : option string) : option string :=
  match o with
  | Some "" => None
  | other => other
  end.

(** [updateInstanceStatusInDb(instanceId, status, extra)]: one status push.
    [safeQuery] catches every database error, so the call never throws. *)
Definition updateInstanceStatusInDb (instanceId st : string)
    (extra : ClientInfo) (w : World) : World :=
  logEffect (EStatus instanceId st (orNull (number extra))
               (orNull (pushname extra)) (orNull (profile_pic extra))) w.

(** ** Recovery: removal with bounded retry *)

Definition defaultMaxRetries : nat := 5.
Definition defaultDelayMs : nat := 1000.

(** The [while (attempts < maxRetries)] loop of [removeFolderWithRetries].
    [rmThrows n] tells whether [rmSync] throws in the iteration entered
    with [attempts = n].  [fuel] bounds the number of iterations. *)
Fixpoint removeLoop (fuel : nat) (folderPath : Path)
    (maxRetries delayMs : nat) (rmThrows : nat → bool) (attempts : nat)
    (w : World) : option (bool * World) :=
  match fuel with
  | O => None
  | S fuel' =>
    if attempts <? maxRetries then
      if existsSync folderPath w then
        if rmThrows attempts then
          let w1 := rmSyncThrows folderPath w in
          let attempts1 := S attempts in
          if maxRetries <=? attempts1 then Some (false, w1)
          else removeLoop fuel' folderPath maxRetries delayMs rmThrows
                 attempts1 (delay delayMs w1)
        else Some (true, rmSyncOk folderPath w)
      else Some (true, w)
    else Some (false, w)
  end.

(** [removeFolderWithRetries(folderPath, maxRetries, delayMs)].  Every
    iteration either returns or increments [attempts], so [S maxRetries]
    iterations are enough ([removeLoop_total]); the last branch is dead. *)
Definition removeFolderWithRetries (folderPath : Path)
    (maxRetries delayMs : nat) (rmThrows : nat → bool) (w : World)
    : bool * World :=
  match removeLoop (S maxRetries) folderPath maxRetries delayMs rmThrows 0 w with
  | Some r => r
  | None => (false, w)
  end.

(** The same loop with the event loop's other work written out: every
    [await delay(delayMs)] suspends the function, and [turn n] is what
    listeners, timers and other pending calls do to the module state
    during the wait that follows failed attempt [n]. *)
Fixpoint removeLoopTurns (fuel : nat) (folderPath : Path)
    (maxRetries delayMs : nat) (rmThrows : nat → bool)
    (turn : nat → World → World) (attempts : nat)
    (w : World) : option (bool * World) :=
  match fuel with
  | O => None
  | S fuel' =>
    if attempts <? maxRetries then
      if existsSync folderPath w then
        if rmThrows attempts then
          let w1 := rmSyncThrows folderPath w in
          let attempts1 := S attempts in
          if maxRetries <=? attempts1 then Some (false, w1)
          else removeLoopTurns fuel' folderPath maxRetries delayMs rmThrows
                 turn attempts1 (turn attempts1 (delay delayMs w1))
        else Some (true, rmSyncOk folderPath w)
      else Some (true, w)
    else Some (false, w)
  end.

Definition removeFolderWithRetriesTurns (folderPath : Path)
    (maxRetries delayMs : nat) (rmThrows : nat → bool)
    (turn : nat → World → World) (w : World) : bool * World :=
  match removeLoopTurns (S maxRetries) folderPath maxRetries delayMs
          rmThrows turn 0 w with
  | Some r => r
  | None => (false, w)
  end.

(** ** Registry reads *)

(** [getInstance]. *)
Definition getInstance (id : string) (w : World) : option Handle :=
  instances w !! id.

(** [getQRCode]. *)
Definition getQRCode (id : string) (w : World) : option string :=
  qrCodes w !! id.

(** [getStatus]: [client ? client.info?.status : null]. *)
Definition getStatus (id : string) (w : World) : JsVal :=
  match instances w !! id with
  | Some client =>
    match clients w !! client ≫= info with
    | Some i =>
      match status i with
      | Some s => JStr s
      | None => JUndefined
      end
    | None => JUndefined
    end
  | None => JNull
  end.

(** [getInfo]: [client?.info || {}]. *)
Definition getInfo (id : string) (w : World) : ClientInfo :=
  match instances w !! id with
  | Some client =>
    match clients w !! client ≫= info with
    | Some i => i
    | None => emptyInfo
    end
  | None => emptyInfo
  end.

(** ** Listeners registered by [createInstance]

    Each listener is a closure over the [id] and the [client] of the call
    that registered it. *)

Definition onQr (id qr : string) (w : World) : World :=
  updateInstanceStatusInDb id "qr" emptyInfo
    (withQrCodes (insert id qr) w).

Definition setInitializing (b : bool) (c : Client) : Client :=
  {| boundId := boundId c; authDataPath := authDataPath c; info := info c;
     isInitializing := b |}.

Definition setInfo (i : ClientInfo) (c : Client) : Client :=
  {| boundId := boundId c; authDataPath := authDataPath c; info := Some i;
     isInitializing := isInitializing c |}.

(** The [ready] listener clears [isInitializing] and then evaluates
    [getInfo(id)].  The module binds no [getInfo]: the function of that
    name is a property of [module.exports] only.  The call therefore
    throws a ReferenceError, the listener's promise rejects, and the
    status push written after it is never reached. *)
Definition onReady (id : string) (client : Handle) (w : World) : World :=
  withClients (alter (setInitializing false) client) w.

Definition onAuthenticated (id : string) (w : World) : World :=
  updateInstanceStatusInDb id "authenticated" emptyInfo w.

Definition onDisconnected (id : string) (w : World) : World :=
  withQrCodes (delete id)
    (withInstances (delete id)
       (updateInstanceStatusInDb id "disconnected" emptyInfo w)).

Definition onAuthFailure (id : string) (w : World) : World :=
  withQrCodes (delete id)
    (withInstances (delete id)
       (updateInstanceStatusInDb id "auth_failure" emptyInfo w)).

(** [client.emit(ev)] for a client built by [createInstance]. *)
Definition emit (client : Handle) (ev : ClientEvent) (w : World) : World :=
  match clients w !! client with
  | Some c =>
    let id := boundId c in
    match ev with
    | EvQr qr => onQr id qr w
    | EvReady => onReady id client w
    | EvAuthenticated => onAuthenticated id w
    | EvDisconnected _ => onDisconnected id w
    | EvDebug _ => w
    | EvAuthFailure _ => onAuthFailure id w
    end
  | None => w
  end.

Definition clientAct (client : Handle) (w : World) (a : ClientAction)
    : World :=
  match a with
  | SetInfo i => withClients (alter (setInfo i) client) w
  | Emit ev => emit client ev w
  end.

Definition clientActs (client : Handle) (acts : list ClientAction)
    (w : World) : World :=
  foldl (clientAct client) w acts.

(** ** Lifecycle primitives *)

(** What a pending [client.initialize()] does: the actions of the client
    while the call is awaited, and the error it rejects with, if any. *)
Record InitBehaviour := {
  initActions : list ClientAction;
  initThrows : option string
}.

(** What the outside does during the body of a reset. *)
Record ResetEnv := {
  destroyActions : list ClientAction;
  destroyThrows : bool;
  rmThrows : nat → bool;
  pkillThrows : bool
}.

(** What else runs while the body of a reset is suspended.  The body
    awaits [client.destroy()], then [delay] after each failed removal
    attempt, then the promise of [removeFolderWithRetries]; at each of
    these the event loop may run listeners, timers and the rest of other
    pending calls, which see and change the module state. *)
Record ResetTurns := {
  whileDestroying : World → World;
  whileWaiting : nat → World → World;
  afterRemoval : World → World
}.

(** Nothing else runs. *)
Definition quietTurns : ResetTurns :=
  {| whileDestroying := λ w, w; whileWaiting := λ _ w, w;
     afterRemoval := λ w, w |}.

Section Manager.

(** [__dirname] of the module. *)
Variable APP_ROOT : Path.

Definition SESSIONS_PATH : Path := path_join APP_ROOT ".wwebjs_auth".
Definition CHROME_PROFILES_PATH : Path :=
  path_join SESSIONS_PATH "_chrome_profiles".

(** [createInstance(id)], the constructor of [LocalAuth] having accepted
    [id]. *)
Definition createInstance (id : string) (ib : InitBehaviour) (w : World)
    : Outcome Handle * World :=
  match instances w !! id with
  | Some existing => (Fulfilled existing, w)
  | None =>
    let '(client, w1) :=
      allocClient {| boundId := id; authDataPath := SESSIONS_PATH;
                     info := None; isInitializing := true |} w in
    let w2 := clientActs client (initActions ib)
                (logEffect (EInitialize client) w1) in
    let w3 :=
      match initThrows ib with
      | Some _ =>
        withQrCodes (delete id)
          (withInstances (delete id)
             (updateInstanceStatusInDb id "error" emptyInfo w2))
      | None => w2
      end in
    (Fulfilled client, withInstances (insert id client) w3)
  end.

(** The function that [resetInstance(instanceId)] hands to [enqueue]. *)
Definition resetBody (instanceId : string) (env : ResetEnv) (w : World)
    : Outcome JsVal * World :=
  let w1 :=
    match instances w !! instanceId with
    | Some client =>
      let destroyed :=
        clientActs client (destroyActions env)
          (logEffect (EDestroy client) w) in
      let afterTry :=
        if destroyThrows env then destroyed (* catch (e) {} *)
        else destroyed in
      withInstances (delete instanceId) afterTry
    | None => w
    end in
  let w2 := withQrCodes (delete instanceId) w1 in
  let profilePath := path_join CHROME_PROFILES_PATH instanceId in
  let '(_, w3) :=
    removeFolderWithRetries profilePath defaultMaxRetries defaultDelayMs
      (rmThrows env) w2 in
  let killed := logEffect (EPkill instanceId) w3 in
  let w4 := if pkillThrows env then killed (* catch (e) {} *) else killed in
  (Fulfilled JUndefined, w4).

(** The same body with the turns of the event loop at its three kinds of
    [await]. *)
Definition resetBodyTurns (instanceId : string) (env : ResetEnv)
    (turns : ResetTurns) (w : World) : Outcome JsVal * World :=
  let w1 :=
    match instances w !! instanceId with
    | Some client =>
      let destroyed :=
        whileDestroying turns
          (clientActs client (destroyActions env)
             (logEffect (EDestroy client) w)) in
      let afterTry :=
        if destroyThrows env then destroyed (* catch (e) {} *)
        else destroyed in
      withInstances (delete instanceId) afterTry
    | None => w
    end in
  let w2 := withQrCodes (delete instanceId) w1 in
  let profilePath := path_join CHROME_PROFILES_PATH instanceId in
  let '(_, w3) :=
    removeFolderWithRetriesTurns profilePath defaultMaxRetries
      defaultDelayMs (rmThrows env) (whileWaiting turns) w2 in
  let resumed := afterRemoval turns w3 in
  let killed := logEffect (EPkill instanceId) resumed in
  let w4 := if pkillThrows env then killed (* catch (e) {} *) else killed in
  (Fulfilled JUndefined, w4).

(** [deleteInstance]. *)
Definition deleteInstance (id : string) (w : World) : bool * World :=
  match instances w !! id with
  | Some client =>
    (true,
     withQrCodes (delete id)
       (withInstances (delete id) (logEffect (EDestroy client) w)))
  | None => (false, w)
  end.

(** [logoutInstance]: a rejected [client.logout()] is not caught, so the
    two [delete]s after it are skipped. *)
Definition logoutInstance (id : string) (logoutThrows : option string)
    (w : World) : Outcome JsVal * World :=
  match instances w !! id with
  | Some client =>
    let w1 := logEffect (ELogout client) w in
    match logoutThrows with
    | Some err => (Rejected err, w1)
    | None =>
      (Fulfilled JUndefined,
       withQrCodes (delete id) (withInstances (delete id) w1))
    end
  | None =>
    (Fulfilled JUndefined,
     withQrCodes (delete id) (withInstances (delete id) w))
  end.

End Manager.

(** ** Operation queue

    [instanceQueue], [queueRunning], [processQueue] and [enqueue], as an
    event-driven machine.  An activation of [processQueue] runs until its
    next [await]; what is left of it is stored in [loops] until the awaited
    promise settles.  Time is a clock in milliseconds that only [Tick]
    advances; a [setTimeout] callback runs no earlier than its due time. *)

Definition cooldownMs : nat := 500.

Section OperationQueue.

Context {W E : Type}.

(** A queued function: given what the outside does while it runs, it
    turns the shared state into a new one and settles. *)
Definition Task : Type := E → W → Outcome JsVal * W.

(** A queue entry [{ fn, resolve, reject }]; [promise] names the promise
    that [resolve] and [reject] settle. *)
Record Entry := {
  fn : Task;
  promise : nat
}.

(** A suspended activation of [processQueue]. *)
Inductive Loop :=
  | AwaitFn (e : Entry)
  | AwaitDelay (due : nat).

Inductive QEvent :=
  | Began (p : nat) (t : nat)
  | Ended (p : nat) (t : nat) (r : Outcome JsVal).

Record QState := {
  world : W;
  instanceQueue : list Entry;
  queueRunning : bool;
  loops : list Loop;
  settled : gmap nat (Outcome JsVal);
  nextPromise : nat;
  now : nat;
  history : list QEvent
}.

Definition initQ (w : W) : QState :=
  {| world := w; instanceQueue := []; queueRunning := false; loops := [];
     settled := ∅; nextPromise := 0; now := 0; history := [] |}.

(** The [while (instanceQueue.length > 0)] test and what follows it up to
    the next [await]: either the head entry is shifted and [fn()] is
    called, or the loop is left and the flag is cleared. *)
Definition loopHead (s : QState) : QState :=
  match instanceQueue s with
  | e :: rest =>
    {| world := world s; instanceQueue := rest;
       queueRunning := queueRunning s;
       loops := loops s ++ [AwaitFn e];
       settled := settled s; nextPromise := nextPromise s; now := now s;
       history := Began (promise e) (now s) :: history s |}
  | [] =>
    {| world := world s; instanceQueue := [];
       queueRunning := false;
       loops := loops s;
       settled := settled s; nextPromise := nextPromise s; now := now s;
       history := history s |}
  end.

(** [processQueue()], up to its first [await]. *)
Definition processQueue (s : QState) : QState :=
  if queueRunning s then s
  else
    loopHead
      {| world := world s; instanceQueue := instanceQueue s;
         queueRunning := true;
         loops := loops s;
         settled := settled s; nextPromise := nextPromise s;
         now := now s; history := history s |}.

(** [enqueue(fn)]: returns the new promise. *)
Definition enqueue (f : Task) (s : QState) : nat * QState :=
  let p := nextPromise s in
  (p,
   processQueue
     {| world := world s;
        instanceQueue := instanceQueue s ++ [{| fn := f; promise := p |}];
        queueRunning := queueRunning s;
        loops := loops s;
        settled := settled s; nextPromise := S p;
        now := now s; history := history s |}).

(** The awaited [fn()] of an activation settles: [resolve(result)] or
    [reject(err)], then [delay(500)] is awaited. *)
Definition afterFn (k : nat) (e : Entry) (env : E) (s : QState) : QState :=
  let '(r, w1) := fn e env (world s) in
  {| world := w1; instanceQueue := instanceQueue s;
     queueRunning := queueRunning s;
     loops := delete k (loops s) ++ [AwaitDelay (now s + cooldownMs)];
     settled := <[promise e := r]> (settled s);
     nextPromise := nextPromise s; now := now s;
     history := Ended (promise e) (now s) r :: history s |}.

(** The cooldown of an activation is over: back to the loop test. *)
Definition afterDelay (k : nat) (s : QState) : QState :=
  loopHead
    {| world := world s; instanceQueue := instanceQueue s;
       queueRunning := queueRunning s;
       loops := delete k (loops s);
       settled := settled s; nextPromise := nextPromise s;
       now := now s; history := history s |}.

(** What can happen, one event-loop turn at a time. *)
Inductive Event :=
  | Enqueue (f : Task)
  | FnSettles (k : nat) (env : E)
  | TimerFires (k : nat)
  | Tick (ms : nat)
  | Outside (f : W → W).

Definition step (s : QState) (ev : Event) : QState :=
  match ev with
  | Enqueue f => snd (enqueue f s)
  | FnSettles k env =>
    match loops s !! k with
    | Some (AwaitFn e) => afterFn k e env s
    | _ => s
    end
  | TimerFires k =>
    match loops s !! k with
    | Some (AwaitDelay due) =>
      if due <=? now s then afterDelay k s else s
    | _ => s
    end
  | Tick ms =>
    {| world := world s; instanceQueue := instanceQueue s;
       queueRunning := queueRunning s; loops := loops s;
       settled := settled s; nextPromise := nextPromise s;
       now := now s + ms; history := history s |}
  | Outside f =>
    {| world := f (world s); instanceQueue := instanceQueue s;
       queueRunning := queueRunning s; loops := loops s;
       settled := settled s; nextPromise := nextPromise s;
       now := now s; history := history s |}
  end.

Definition run (evs : list Event) (s : QState) : QState :=
  foldl step s evs.

End OperationQueue.

Arguments Entry : clear implicits.
Arguments Loop : clear implicits.
Arguments QState : clear implicits.
Arguments Event : clear implicits.

(** [resetInstance(instanceId)]: the body goes through the queue. *)
Definition resetInstance (APP_ROOT : Path) (instanceId : string)
    (s : QState World ResetEnv) : nat * QState World ResetEnv :=
  enqueue (resetBody APP_ROOT instanceId) s.

(** ** Resource monitor *)

(** [canCreateInstance(maxCpu, maxRamPercent)]: the value the returned
    promise resolves to, given the sample [cpuPercent] that [os.cpuUsage]
    passes to its callback (a fraction of one) and the two memory
    readings.  All five are JavaScript numbers, that is, doubles; [a > b]
    on doubles is [b <? a], false as soon as one side is NaN. *)
Definition ramPercent (totalMem freeMem : float) : float :=
  ((totalMem - freeMem) / totalMem * 100)%float.

Definition canCreateInstance (maxCpu maxRamPercent : float)
    (cpuPercent totalMem freeMem : float) : bool :=
  negb ((maxCpu <? cpuPercent * 100)%float
        || (maxRamPercent <? ramPercent totalMem freeMem)%float).

Definition defaultMaxCpu : float := 80%float.
Definition defaultMaxRamPercent : float := 80%float.

(** The memory sweep compares the same figure with the constant 85; the
    figure is taken as the exact quotient there. *)
Definition Qgtb (a b : Q) : bool := negb (Qle_bool a b).

(** [((totalMem - freeMem) / totalMem) * 100]. *)
Definition usedRamPercent (totalMem freeMem : Q) : Q :=
  ((totalMem - freeMem) / totalMem * 100)%Q.

(** ** Vocabulary of the statements *)

(** [id] is in neither the Registry nor the QR map. *)
Definition unregistered (id : string) (w : World) : Prop :=
  instances w !! id = None ∧ qrCodes w !! id = None.

(** A piece of outside work that does not put [id] into either map. *)
Definition keepsOut (id : string) (f : World → World) : Prop :=
  ∀ w, unregistered id w → unregistered id (f w).

(** Appending a batch of effects. *)
Definition logAll (es : list Effect) (w : World) : World :=
  {| instances := instances w; qrCodes := qrCodes w;
     clients := clients w; nextHandle := nextHandle w; fs := fs w;
     effects := effects w ++ es |}.

(** [n] removal attempts that threw, each followed by the wait. *)
Fixpoint failedAttempts (p : Path) (delayMs n : nat) : list Effect :=
  match n with
  | O => []
  | S n' => ERmSync p false :: EDelay delayMs :: failedAttempts p delayMs n'
  end.

(** [n] removal attempts that all threw: no wait after the last one. *)
Definition exhaustedAttempts (p : Path) (delayMs n : nat) : list Effect :=
  match n with
  | O => []
  | S n' => failedAttempts p delayMs n' ++ [ERmSync p false]
  end.

(** Credentials of an instance as [LocalAuth] lays them out under its
    [dataPath] for [clientId: id]. *)
Definition sessionDir (APP_ROOT : Path) (id : string) : Path :=
  path_join (SESSIONS_PATH APP_ROOT) ("session-" ++ id)%string.

(** The profile cache directory of an instance. *)
Definition profileDir (APP_ROOT : Path) (id : string) : Path :=
  path_join (CHROME_PROFILES_PATH APP_ROOT) id.

(** A file system with one profile directory, used by the examples. *)
Definition demoRoot : Path := ["srv"; "waapi"].

Definition demoWorld : World :=
  withFs (λ _, {[ SESSIONS_PATH demoRoot;
                  CHROME_PROFILES_PATH demoRoot;
                  sessionDir demoRoot "alice";
                  profileDir demoRoot "alice";
                  path_join (profileDir demoRoot "alice") "Default" ]})
    emptyWorld.

(** An external client that does nothing noteworthy. *)
Definition quietInit : InitBehaviour :=
  {| initActions := []; initThrows := None |}.

(** An [initialize()] that shows a QR challenge and then rejects. *)
Definition failingInit : InitBehaviour :=
  {| initActions := [Emit (EvQr "2@challenge")];
     initThrows := Some "Protocol error" |}.

(** A reset during which nothing goes wrong. *)
Definition calmReset : ResetEnv :=
  {| destroyActions := []; destroyThrows := false;
     rmThrows := λ _, false; pkillThrows := false |}.

(** A reset during which the profile directory stays locked. *)
Definition lockedReset : ResetEnv :=
  {| destroyActions := []; destroyThrows := true;
     rmThrows := λ _, true; pkillThrows := false |}.

(** [demoWorld] after ["alice"] was created without incident. *)
Definition aliceWorld : World :=
  snd (createInstance demoRoot "alice" quietInit demoWorld).


(** [demoWorld] while a [createInstance("alice")] is suspended at
    [await client.initialize()]: the client exists and carries its
    listeners, and is not registered yet. *)
Definition pendingWorld : World :=
  logEffect (EInitialize 0)
    (snd (allocClient {| boundId := "alice";
                         authDataPath := SESSIONS_PATH demoRoot;
                         info := None; isInitializing := true |} demoWorld)).

(** The pending creation goes on while a reset has handed its removal to
    the event loop: the client shows a QR challenge, [initialize()]
    settles, and the creation registers its client. *)
Definition creationResumes : ResetTurns :=
  {| whileDestroying := λ w, w; whileWaiting := λ _ w, w;
     afterRemoval := λ w,
       withInstances (insert "alice" 0) (emit 0 (EvQr "2@late") w) |}.

(** A QR challenge of the client being reset arrives during the wait
    after the first failed removal attempt. *)
Definition lateQr : ResetTurns :=
  {| whileDestroying := λ w, w;
     whileWaiting := λ n w, if n =? 1 then emit 0 (EvQr "2@late") w else w;
     afterRemoval := λ w, w |}.

(** Another instance gets its QR challenge during every wait. *)
Definition bobTurns : ResetTurns :=
  {| whileDestroying := withQrCodes (insert "bob" "2@bob");
     whileWaiting := λ _, withQrCodes (insert "bob" "2@bob");
     afterRemoval := withQrCodes (insert "bob" "2@bob") |}.


(** ** Vocabulary of the queue statements *)

Section QueueVocabulary.

Context {W E : Type}.

(** Every operation numbered below [bound] has ended, and its cooldown
    is over by [deadline]. *)
Definition endedBefore (h : list QEvent) (bound deadline : nat) : Prop :=
  ∀ p, p < bound → ∃ t r, Ended p t r ∈ h ∧ t + cooldownMs ≤ deadline.

(** Only operations numbered below [bound] have ended, and the promise
    of each holds the outcome it ended with. *)
Definition endedOnly (h : list QEvent) (st : gmap nat (Outcome JsVal))
    (bound : nat) : Prop :=
  ∀ p t r, Ended p t r ∈ h → p < bound ∧ st !! p = Some r.

(** A history (newest first) in which an operation begins only after
    every operation submitted before it has ended and cooled down. *)
Fixpoint ordered (h : list QEvent) : Prop :=
  match h with
  | [] => True
  | Began pB tB :: older =>
    (∀ pA, pA < pB →
           ∃ tA r, Ended pA tA r ∈ older ∧ tA + cooldownMs ≤ tB) ∧
    ordered older
  | Ended _ _ _ :: older => ordered older
  end.

(** The invariant of the queue; [k] operations have been started. *)
Definition QInvAt (k : nat) (s : QState W E) : Prop :=
  k + length (instanceQueue s) = nextPromise s ∧
  map promise (instanceQueue s) = seq k (length (instanceQueue s)) ∧
  ordered (history s) ∧
  match loops s with
  | [] =>
    queueRunning s = false ∧ instanceQueue s = [] ∧
    endedBefore (history s) k (now s) ∧
    endedOnly (history s) (settled s) k
  | [AwaitFn e] =>
    queueRunning s = true ∧ S (promise e) = k ∧
    endedBefore (history s) (promise e) (now s) ∧
    endedOnly (history s) (settled s) (promise e)
  | [AwaitDelay due] =>
    queueRunning s = true ∧ due ≤ now s + cooldownMs ∧
    endedBefore (history s) k due ∧
    endedOnly (history s) (settled s) k
  | _ => False
  end.

Definition QInv (s : QState W E) : Prop := ∃ k, QInvAt k s.

(** Every promise handed out stands for the function it was submitted
    with ([subs], in submission order), and a settled promise holds an
    outcome of that function. *)
Definition TaskInv (subs : list (@Task W E)) (s : QState W E) : Prop :=
  length subs = nextPromise s ∧
  (∀ e, e ∈ instanceQueue s → subs !! promise e = Some (fn e)) ∧
  (∀ e, AwaitFn e ∈ loops s → subs !! promise e = Some (fn e)) ∧
  (∀ p r, settled s !! p = Some r →
          ∃ f env w, subs !! p = Some f ∧ r = fst (f env w)).

(** One turn of an environment that lets the queue advance: the pending
    function settles, the cooldown elapses, its timer fires. *)
Definition drainTurn (env : E) : list (Event W E) :=
  [FnSettles 0 env; Tick cooldownMs; TimerFires 0].

Fixpoint drainTurns (env : E) (n : nat) : list (Event W E) :=
  match n with
  | O => []
  | S n' => drainTurn env ++ drainTurns env n'
  end.

(** Turns needed to drain the queue. *)
Definition pendingWork (s : QState W E) : nat :=
  2 * length (instanceQueue s) +
  match loops s with
  | [AwaitFn _] => 2
  | [AwaitDelay _] => 1
  | _ => 0
  end.

End QueueVocabulary.

(** Two queued functions over a trivial state: one rejects, one
    fulfils. *)
Definition rejectingTask : @Task unit unit :=
  λ _ w, (Rejected "boom", w).

Definition fulfillingTask : @Task unit unit :=
  λ _ w, (Fulfilled JUndefined, w).

(** * More of the module and of its callers *)

(** ** Session store *)

(** The directory and its ancestors: all non-empty prefixes of a path. *)
Fixpoint pathPrefixes (p : Path) : list Path :=
  match p with
  | [] => []
  | seg :: rest => [seg] :: map (cons seg) (pathPrefixes rest)
  end.

(** A successful [fs.mkdirSync(dir, { recursive: true })]. *)
Definition mkdirRecursive (dir : Path) (files : gset Path) : gset Path :=
  files ∪ list_to_set (pathPrefixes dir).

(** [ensureDir(dir)].  [mkdirThrows] tells whether [fs.mkdirSync] throws
    when it is called (an ancestor is a file, or may not be written to);
    the function has no [try], so the result is then [None]: the error
    leaves [ensureDir]. *)
Definition ensureDir (dir : Path) (mkdirThrows : bool) (w : World)
    : option World :=
  if existsSync dir w then Some w
  else if mkdirThrows then None
  else Some (withFs (mkdirRecursive dir) w).

(** The two [ensureDir] calls made when the module is loaded; [None] when
    one of them throws, and [require] of the module with it. *)
Definition ensureSessionDirs (APP_ROOT : Path) (mkdirThrows : Path → bool)
    (w : World) : option World :=
  w1 ← ensureDir (SESSIONS_PATH APP_ROOT)
         (mkdirThrows (SESSIONS_PATH APP_ROOT)) w;
  ensureDir (CHROME_PROFILES_PATH APP_ROOT)
    (mkdirThrows (CHROME_PROFILES_PATH APP_ROOT)) w1.

(** ** Browser lookup *)

(** The [candidates] of [getChromePath]; [CHROME_BIN] is [None] when the
    variable is unset or empty. *)
Definition chromeCandidates (CHROME_BIN : option Path) : list (option Path) :=
  [CHROME_BIN;
   Some ["usr"; "bin"; "chromium-browser"];
   Some ["usr"; "bin"; "chromium"];
   Some ["usr"; "bin"; "google-chrome"];
   Some ["usr"; "bin"; "google-chrome-stable"]].

(** [for (const p of candidates) if (p && fs.existsSync(p)) return p]. *)
Fixpoint firstExisting (candidates : list (option Path)) (w : World)
    : option Path :=
  match candidates with
  | [] => None
  | c :: rest =>
    match c with
    | Some p => if existsSync p w then Some p else firstExisting rest w
    | None => firstExisting rest w
    end
  end.

(** [getChromePath()]; [None] is the [null] it returns after the warning. *)
Definition getChromePath (CHROME_BIN : option Path) (w : World)
    : option Path :=
  firstExisting (chromeCandidates CHROME_BIN) w.

(** ** The client id check of the library

    [createInstance] builds its client with
    [new LocalAuth({ clientId: id, dataPath: SESSIONS_PATH })].  The
    constructor of [LocalAuth] throws on a non-empty [clientId] that does
    not match [/^[-_\w]+$/i]: only letters, digits, [_] and [-] pass. *)

Definition wordChar (c : ascii) : bool :=
  let n := nat_of_ascii c in
  ((48 <=? n) && (n <=? 57)) || ((65 <=? n) && (n <=? 90))
  || ((97 <=? n) && (n <=? 122)) || (n =? 95) || (n =? 45).

Fixpoint allWordChars (s : string) : bool :=
  match s with
  | EmptyString => true
  | String c rest => wordChar c && allWordChars rest
  end.

(** [!(clientId && !idRegex.test(clientId))]. *)
Definition localAuthAccepts (clientId : string) : bool :=
  String.eqb clientId "" || allWordChars clientId.

Definition invalidClientId : string :=
  "Invalid clientId. Only alphanumeric characters, underscores and hyphens are allowed.".

(** A call of [createInstance(id)], with the constructor's check.  The
    check comes after the test for an existing handle and before the
    client exists, outside the [try]: on an id the library refuses, the
    promise of [createInstance] rejects and nothing has changed.  From
    there on the call is [createInstance] as above. *)
Definition createInstanceCall (APP_ROOT : Path) (id : string)
    (ib : InitBehaviour) (w : World) : Outcome Handle * World :=
  match instances w !! id with
  | Some existing => (Fulfilled existing, w)
  | None =>
    if localAuthAccepts id then createInstance APP_ROOT id ib w
    else (Rejected invalidClientId, w)
  end.

(** ** Restart *)

(** [restartInstance(id)]: [await resetInstance(id)], then
    [await createInstance(id)], with nothing else running in between. *)
Definition restartInstance (APP_ROOT : Path) (id : string) (env : ResetEnv)
    (ib : InitBehaviour) (w : World) : Outcome JsVal * World :=
  match resetBody APP_ROOT id env w with
  | (Fulfilled _, w1) =>
    match createInstanceCall APP_ROOT id ib w1 with
    | (Fulfilled _, w2) => (Fulfilled JUndefined, w2)
    | (Rejected err, w2) => (Rejected err, w2)
    end
  | (Rejected err, w1) => (Rejected err, w1)
  end.

(** The same with the event loop's other work: [turns] is what runs
    while the reset is suspended, [meanwhile] what runs between the end
    of the reset and the moment [restartInstance] resumes. *)
Definition restartInstanceTurns (APP_ROOT : Path) (id : string)
    (env : ResetEnv) (turns : ResetTurns) (meanwhile : World → World)
    (ib : InitBehaviour) (w : World) : Outcome JsVal * World :=
  match resetBodyTurns APP_ROOT id env turns w with
  | (Fulfilled _, w1) =>
    match createInstanceCall APP_ROOT id ib (meanwhile w1) with
    | (Fulfilled _, w2) => (Fulfilled JUndefined, w2)
    | (Rejected err, w2) => (Rejected err, w2)
    end
  | (Rejected err, w1) => (Rejected err, w1)
  end.

(** ** Registry discipline *)

(** Every registered handle points to a client whose listeners are bound
    to the id it is registered under, and every client on the heap was
    allocated before [nextHandle]. *)
Definition RegistryWF (w : World) : Prop :=
  (∀ id h, instances w !! id = Some h →
           ∃ c, clients w !! h = Some c ∧ boundId c = id) ∧
  (∀ h c, clients w !! h = Some c → h < nextHandle w).

(** ** Counting effects *)

Definition isRmSync (e : Effect) : bool :=
  match e with ERmSync _ _ => true | _ => false end.

Definition delayOf (e : Effect) : nat :=
  match e with EDelay ms => ms | _ => 0 end.

(** Number of removal attempts in a run of effects. *)
Definition rmAttempts (es : list Effect) : nat :=
  length (List.filter isRmSync es).

(** Milliseconds slept in a run of effects. *)
Definition totalDelay (es : list Effect) : nat :=
  foldr (λ e acc, delayOf e + acc) 0 es.

(** The effects an operation added to those of [w]. *)
Definition effectsSince (w w' : World) : list Effect :=
  drop (length (effects w)) (effects w').

(** ** Histories of the manager *)

(** One thing that happens to the manager: a call of one of its exported
    operations, or an action of a client it has built.  In a history the
    operations follow one another: each runs to its end before the next
    thing happens. *)
Inductive LifecycleOp :=
  | OpCreate (id : string) (ib : InitBehaviour)
  | OpReset (id : string) (env : ResetEnv)
  | OpRestart (id : string) (env : ResetEnv) (ib : InitBehaviour)
  | OpDelete (id : string)
  | OpLogout (id : string) (logoutThrows : option string)
  | OpClient (client : Handle) (a : ClientAction).

Definition applyOp (APP_ROOT : Path) (w : World) (op : LifecycleOp)
    : World :=
  match op with
  | OpCreate id ib => snd (createInstanceCall APP_ROOT id ib w)
  | OpReset id env => snd (resetBody APP_ROOT id env w)
  | OpRestart id env ib => snd (restartInstance APP_ROOT id env ib w)
  | OpDelete id => snd (deleteInstance id w)
  | OpLogout id logoutThrows => snd (logoutInstance id logoutThrows w)
  | OpClient client a => clientAct client w a
  end.


Definition runOps (APP_ROOT : Path) (ops : list LifecycleOp) (w : World)
    : World :=
  foldl (applyOp APP_ROOT) w ops.

(** The state right after the module is loaded, on a disk that holds
    [files] and lets both directories be made. *)
Definition loadedWorld (APP_ROOT : Path) (files : gset Path) : World :=
  default emptyWorld
    (ensureSessionDirs APP_ROOT (λ _, false)
       (withFs (λ _, files) emptyWorld)).

(** The Registry and the QR map agree on [id] in two states. *)
Definition sameAt (id : string) (w w' : World) : Prop :=
  instances w' !! id = instances w !! id ∧
  qrCodes w' !! id = qrCodes w !! id.

Definition isDestroy (e : Effect) : bool :=
  match e with EDestroy _ => true | _ => false end.

Definition isInitialize (e : Effect) : bool :=
  match e with EInitialize _ => true | _ => false end.

Definition isStatus (e : Effect) : bool :=
  match e with EStatus _ _ _ _ _ => true | _ => false end.

(** The effects a bounded-retry removal of [p] may produce. *)
Definition isRemovalStep (p : Path) (delayMs : nat) (e : Effect) : Prop :=
  (∃ ok, e = ERmSync p ok) ∨ e = EDelay delayMs.

(** ** More vocabulary for the queue *)

(** The operations that have begun, newest first. *)
Definition beganIds (h : list QEvent) : list nat :=
  omap (λ ev, match ev with Began p _ => Some p | Ended _ _ _ => None end) h.

(** A settled promise was settled by the end of its own operation. *)
Definition SettledInv {W E : Type} (s : QState W E) : Prop :=
  ∀ p r, settled s !! p = Some r → ∃ t, Ended p t r ∈ history s.

(** ** The HTTP routes that call the manager (app.js)

    A handler is given the [id] it computes from the request,
    [(req.params.id || '').trim()], and returns the response it sends. *)

Inductive Body :=
  | BError (error : string) (details : option string)
  | BSuccess (message : option string)
  | BQrImage (qr_image : string).

Record Response := {
  code : nat;
  body : Body
}.

(** Truthiness of a value. *)
Definition truthy (v : JsVal) : bool :=
  match v with
  | JNull | JUndefined => false
  | JBool b => b
  | JStr s => negb (String.eqb s "")
  end.

(** [!id] on a string. *)
Definition missingId (id : string) : bool := String.eqb id "".

Definition idRequired : Response :=
  {| code := 400; body := BError "Instance id is required" None |}.

(** [POST /instance/:id]. *)
Definition createRoute (APP_ROOT : Path) (id : string) (ib : InitBehaviour)
    (w : World) : Response * World :=
  if missingId id then (idRequired, w)
  else
    match createInstanceCall APP_ROOT id ib w with
    | (Fulfilled _, w1) =>
      ({| code := 200;
          body := BSuccess (Some ("Instance " ++ id ++ " created")%string) |},
       w1)
    | (Rejected err, w1) =>
      ({| code := 500;
          body := BError "Failed to create instance" (Some err) |}, w1)
    end.

(** [DELETE /instance/:id]. *)
Definition deleteRoute (id : string) (w : World) : Response * World :=
  if missingId id then (idRequired, w)
  else
    match deleteInstance id w with
    | (true, w1) => ({| code := 200; body := BSuccess None |}, w1)
    | (false, w1) =>
      ({| code := 404; body := BError "Instance not found" None |}, w1)
    end.

(** What [GET /qr/:id] answers once an instance is there. *)
Definition qrAnswer (id : string) (toDataURL : string → Outcome string)
    (w1 : World) : Response * World :=
  let connected :=
    match instances w1 !! id with
    | Some client => bool_decide (is_Some (clients w1 !! client ≫= info))
    | None => false
    end in
  if connected then
    ({| code := 400;
        body := BError "Already connected. QR not needed." None |}, w1)
  else
    match qrCodes w1 !! id with
    | Some qr =>
      if String.eqb qr "" then
        ({| code := 404;
            body := BError "QR not available. Instance may be connected or not created." None |},
         w1)
      else
        match toDataURL qr with
        | Fulfilled img => ({| code := 200; body := BQrImage img |}, w1)
        | Rejected err =>
          ({| code := 500;
              body := BError "Failed to generate QR image." (Some err) |},
           w1)
        end
    | None =>
      ({| code := 404;
          body := BError "QR not available. Instance may be connected or not created." None |},
       w1)
    end.

(** [GET /qr/:id]; [toDataURL] is the QR image encoder.  A rejected
    [createInstance] is caught by the same [catch] as a failed encoder. *)
Definition qrRoute (APP_ROOT : Path) (id : string) (ib : InitBehaviour)
    (toDataURL : string → Outcome string) (w : World) : Response * World :=
  if missingId id then (idRequired, w)
  else
    match instances w !! id with
    | Some _ => qrAnswer id toDataURL w
    | None =>
      match createInstanceCall APP_ROOT id ib w with
      | (Fulfilled _, w1) => qrAnswer id toDataURL w1
      | (Rejected err, w1) =>
        ({| code := 500;
            body := BError "Failed to generate QR image." (Some err) |},
         w1)
      end
    end.


(** [POST /reset/:id]. *)
Definition resetRoute (APP_ROOT : Path) (id : string) (env : ResetEnv)
    (turns : ResetTurns) (w : World) : Response * World :=
  if missingId id then (idRequired, w)
  else
    match resetBodyTurns APP_ROOT id env turns w with
    | (Fulfilled result, w1) =>
      if truthy result then
        ({| code := 200;
            body := BSuccess (Some ("Instance " ++ id ++ " has been reset")%string) |},
         w1)
      else
        ({| code := 404;
            body := BError "Instance not found or failed to reset" None |},
         w1)
    | (Rejected err, w1) =>
      ({| code := 500;
          body := BError "Failed to reset instance" (Some err) |}, w1)
    end.

(** ** Memory cleanup *)

(** [client.info?.wid] is truthy. *)
Definition hasWid (client : Handle) (w : World) : bool :=
  match (clients w !! client ≫= info) ≫= wid with
  | Some s => negb (String.eqb s "")
  | None => false
  end.

(** The [for ... of instances.entries()] loop of the cleanup timer;
    [entries] is the Registry in iteration order. *)
Definition cleanupSweep (APP_ROOT : Path) (entries : list (string * Handle))
    (s : QState World ResetEnv) : QState World ResetEnv :=
  foldl (λ s entry,
           if hasWid (snd entry) (world s) then s
           else snd (resetInstance APP_ROOT (fst entry) s))
        s entries.

(** One firing of the cleanup timer, given the two memory readings. *)
Definition memoryCleanup (APP_ROOT : Path) (entries : list (string * Handle))
    (totalMem freeMem : Q) (s : QState World ResetEnv)
    : QState World ResetEnv :=
  if Qgtb (usedRamPercent totalMem freeMem) 85 then
    cleanupSweep APP_ROOT entries s
  else s.

(** The ids of the entries whose client has no [wid], in order. *)
Definition cleanupTargets (entries : list (string * Handle)) (w : World)
    : list string :=
  fst <$> List.filter (λ entry, negb (hasWid (snd entry) w)) entries.

(** ** Sample histories *)

(** Alice is created without incident, Bob's initialisation fails. *)
Definition demoOps : list LifecycleOp :=
  [OpCreate "alice" quietInit; OpCreate "bob" failingInit].

Definition demoRun : World :=
  runOps demoRoot demoOps (loadedWorld demoRoot ∅).

(** A QR encoder that always succeeds. *)
Definition demoEncoder (qr : string) : Outcome string :=
  Fulfilled ("data:image/png;base64," ++ qr)%string.

(** * Properties *)

(** ** Removal with bounded retry *)

Lemma logEffect_logAll e es w :
  logEffect e (logAll es w) = logAll (es ++ [e]) w.
Proof. unfold logEffect, logAll; simpl. by rewrite app_assoc. Qed.

Lemma logAll_logAll es1 es2 w :
  logAll es2 (logAll es1 w) = logAll (es1 ++ es2) w.
Proof. unfold logAll; simpl. by rewrite app_assoc. Qed.

Lemma logAll_nil w : logAll [] w = w.
Proof. destruct w. unfold logAll; simpl. by rewrite app_nil_r. Qed.

Lemma logEffect_as_logAll e w : logEffect e w = logAll [e] w.
Proof. reflexivity. Qed.

Lemma existsSync_logAll p es w : existsSync p (logAll es w) = existsSync p w.
Proof. reflexivity. Qed.

(** The loop after [k] throwing attempts, when the next one is allowed and
    does not throw. *)
Lemma removeLoop_succeeds p maxRetries delayMs rmThrows :
  ∀ k fuel attempts w,
    existsSync p w = true →
    (∀ j, j < k → rmThrows (attempts + j) = true) →
    rmThrows (attempts + k) = false →
    attempts + k < maxRetries →
    k < fuel →
    removeLoop fuel p maxRetries delayMs rmThrows attempts w
    = Some (true, rmSyncOk p (logAll (failedAttempts p delayMs k) w)).
Proof.
  induction k as [|k IH]; intros fuel attempts w Hex Hfail Hok Hlt Hfuel.
  - destruct fuel as [|fuel]; [lia|]. simpl.
    rewrite Nat.add_0_r in Hok, Hlt.
    apply Nat.ltb_lt in Hlt. rewrite Hlt, Hex, Hok.
    by rewrite logAll_nil.
  - destruct fuel as [|fuel]; [lia|]. simpl.
    assert ((attempts <? maxRetries) = true) as -> by (apply Nat.ltb_lt; lia).
    rewrite Hex.
    rewrite <- (Nat.add_0_r attempts) at 1. rewrite (Hfail 0) by lia.
    assert ((maxRetries <=? S attempts) = false) as ->
      by (apply Nat.leb_gt; lia).
    unfold delay, rmSyncThrows.
    rewrite (logEffect_as_logAll _ w), logEffect_logAll.
    rewrite (IH fuel (S attempts)).
    + by rewrite logAll_logAll.
    + done.
    + intros j Hj. replace (S attempts + j) with (attempts + S j) by lia.
      apply Hfail. lia.
    + by replace (S attempts + k) with (attempts + S k) by lia.
    + lia.
    + lia.
Qed.

(** The loop when every remaining attempt throws. *)
Lemma removeLoop_exhausts p maxRetries delayMs rmThrows :
  ∀ n fuel attempts w,
    existsSync p w = true →
    (∀ j, attempts ≤ j → j < maxRetries → rmThrows j = true) →
    attempts + S n = maxRetries →
    n < fuel →
    removeLoop fuel p maxRetries delayMs rmThrows attempts w
    = Some (false, logAll (exhaustedAttempts p delayMs (S n)) w).
Proof.
  induction n as [|n IH]; intros fuel attempts w Hex Hfail Hsum Hfuel.
  - destruct fuel as [|fuel]; [lia|]. simpl.
    assert ((attempts <? maxRetries) = true) as -> by (apply Nat.ltb_lt; lia).
    rewrite Hex, Hfail by lia.
    assert ((maxRetries <=? S attempts) = true) as ->
      by (apply Nat.leb_le; lia).
    reflexivity.
  - destruct fuel as [|fuel]; [lia|]. simpl.
    assert ((attempts <? maxRetries) = true) as -> by (apply Nat.ltb_lt; lia).
    rewrite Hex, Hfail by lia.
    assert ((maxRetries <=? S attempts) = false) as ->
      by (apply Nat.leb_gt; lia).
    unfold delay, rmSyncThrows.
    rewrite (logEffect_as_logAll _ w), logEffect_logAll.
    rewrite (IH fuel (S attempts)).
    + by rewrite logAll_logAll.
    + done.
    + intros j ? ?. apply Hfail; lia.
    + lia.
    + lia.
Qed.

(** The fuel handed to the loop is never used up. *)
Lemma removeLoop_total p maxRetries delayMs rmThrows :
  ∀ fuel attempts w,
    maxRetries - attempts < fuel →
    is_Some (removeLoop fuel p maxRetries delayMs rmThrows attempts w).
Proof.
  induction fuel as [|fuel IH]; intros attempts w Hfuel; [lia|].
  simpl. destruct (attempts <? maxRetries) eqn:Hlt; [|by eexists].
  apply Nat.ltb_lt in Hlt.
  destruct (existsSync p w); [|by eexists].
  destruct (rmThrows attempts); [|by eexists].
  destruct (maxRetries <=? S attempts) eqn:Hle; [by eexists|].
  apply IH. lia.
Qed.

(** C6. [removeFolderWithRetries(path, maxRetries, delayMs)] on an existing
    folder, where [k] counts the attempts that throw before the function
    stops.  If the attempt after them is still within [maxRetries] and
    does not throw, the function made exactly [k] failed attempts, each
    followed by a wait of [delayMs], then one recursive removal, and
    returns [true] with nothing after it.  If all [maxRetries] attempts
    throw, it made exactly [maxRetries] attempts with a wait of [delayMs]
    between consecutive ones and returns [false]; being a total function,
    it does not throw. *)
Theorem removeFolderWithRetries_bounded_retry
    (p : Path) (maxRetries delayMs : nat) (rmThrows : nat → bool)
    (w : World) (k : nat) :
  existsSync p w = true →
  k ≤ maxRetries →
  (∀ j, j < k → rmThrows j = true) →
  (k < maxRetries → rmThrows k = false) →
  removeFolderWithRetries p maxRetries delayMs rmThrows w
  = if k <? maxRetries
    then (true, rmSyncOk p (logAll (failedAttempts p delayMs k) w))
    else (false, logAll (exhaustedAttempts p delayMs maxRetries) w).
Proof.
  intros Hex Hk Hfail Hok. unfold removeFolderWithRetries.
  destruct (k <? maxRetries) eqn:Hlt.
  - apply Nat.ltb_lt in Hlt.
    rewrite (removeLoop_succeeds p maxRetries delayMs rmThrows k); auto; lia.
  - apply Nat.ltb_ge in Hlt. assert (k = maxRetries) as -> by lia.
    destruct maxRetries as [|n].
    + simpl. by rewrite logAll_nil.
    + rewrite (removeLoop_exhausts p (S n) delayMs rmThrows n); auto; lia.
Qed.

Lemma removeFolderWithRetries_bounded_retry_witness :
  removeFolderWithRetries (profileDir demoRoot "alice") 5 1000
    (λ n, n <? 2) demoWorld
  = (true,
     rmSyncOk (profileDir demoRoot "alice")
       (logAll (failedAttempts (profileDir demoRoot "alice") 1000 2)
          demoWorld)).
Proof.
  apply (removeFolderWithRetries_bounded_retry
           (profileDir demoRoot "alice") 5 1000 (λ n, n <? 2) demoWorld 2).
  - vm_compute. reflexivity.
  - lia.
  - intros j Hj. apply Nat.ltb_lt. exact Hj.
  - intros _. reflexivity.
Defined.

(** C10, as stated: a missing folder makes the function return [true]
    whatever [maxRetries] is.  With [maxRetries = 0] the loop body is never
    entered and the function returns [false]. *)
Lemma removeFolderWithRetries_missing_zero_retries :
  existsSync ["tmp"; "gone"] emptyWorld = false ∧
  fst (removeFolderWithRetries ["tmp"; "gone"] 0 1000 (λ _, false)
         emptyWorld) ≠ true.
Proof. split; [reflexivity | discriminate]. Qed.

(** C10, amended.  For a path that does not exist and [maxRetries] at least
    one, [removeFolderWithRetries] returns [true] from its first iteration
    and leaves the state as it was: no removal, no wait, no retry. *)
Theorem removeFolderWithRetries_missing
    (p : Path) (maxRetries delayMs : nat) (rmThrows : nat → bool)
    (w : World) :
  existsSync p w = false →
  0 < maxRetries →
  removeFolderWithRetries p maxRetries delayMs rmThrows w = (true, w).
Proof.
  intros Hex Hpos. unfold removeFolderWithRetries. simpl.
  assert ((0 <? maxRetries) = true) as -> by (apply Nat.ltb_lt; lia).
  by rewrite Hex.
Qed.

Lemma removeFolderWithRetries_missing_witness :
  removeFolderWithRetries ["tmp"; "gone"] 5 1000 (λ _, true) demoWorld
  = (true, demoWorld).
Proof.
  apply (removeFolderWithRetries_missing ["tmp"; "gone"] 5 1000 (λ _, true)
           demoWorld).
  - vm_compute. reflexivity.
  - lia.
Defined.

(** With the folder locked throughout, the default call makes five
    attempts and sleeps four times. *)
Example removeFolderWithRetries_locked :
  let r := removeFolderWithRetries (profileDir demoRoot "alice")
             defaultMaxRetries defaultDelayMs (λ _, true) demoWorld in
  fst r = false ∧
  effects (snd r)
  = [ERmSync (profileDir demoRoot "alice") false; EDelay 1000;
     ERmSync (profileDir demoRoot "alice") false; EDelay 1000;
     ERmSync (profileDir demoRoot "alice") false; EDelay 1000;
     ERmSync (profileDir demoRoot "alice") false; EDelay 1000;
     ERmSync (profileDir demoRoot "alice") false].
Proof. split; reflexivity. Qed.

(** What the loop can and cannot change. *)
Lemma removeLoop_frame p maxRetries delayMs rmThrows :
  ∀ fuel attempts w b w',
    removeLoop fuel p maxRetries delayMs rmThrows attempts w = Some (b, w') →
    instances w' = instances w ∧ qrCodes w' = qrCodes w ∧
    clients w' = clients w ∧ nextHandle w' = nextHandle w ∧
    (if b then ((p ∉ fs w') ∧ (fs w' = fs w ∨ fs w' = rmTree p (fs w)))
     else (fs w' = fs w ∧
           ∀ j, attempts ≤ j → j < maxRetries → rmThrows j = true)).
Proof.
  induction fuel as [|fuel IH]; intros attempts w b w' Hrun; [done|].
  simpl in Hrun.
  destruct (attempts <? maxRetries) eqn:Hlt.
  - apply Nat.ltb_lt in Hlt.
    destruct (existsSync p w) eqn:Hex.
    + destruct (rmThrows attempts) eqn:Hthrow.
      * destruct (maxRetries <=? S attempts) eqn:Hle.
        -- inversion Hrun; subst; clear Hrun. simpl.
           apply Nat.leb_le in Hle. repeat split; try done.
           intros j Hj1 Hj2. assert (j = attempts) as -> by lia. done.
        -- apply IH in Hrun. simpl in Hrun.
           destruct Hrun as (Hi & Hq & Hc & Hn & Hb).
           repeat split; try done.
           destruct b; [done|]. destruct Hb as [Hfs Hall].
           split; [done|]. intros j Hj1 Hj2.
           destruct (decide (j = attempts)) as [->|Hne]; [done|].
           apply Hall; lia.
      * inversion Hrun; subst; clear Hrun. simpl. repeat split; try done.
        -- unfold rmTree. rewrite elem_of_filter. intros [Hn _].
           apply Hn. done.
        -- by right.
    + inversion Hrun; subst; clear Hrun. repeat split; try done.
      * unfold existsSync in Hex. by apply bool_decide_eq_false in Hex.
      * by left.
  - inversion Hrun; subst; clear Hrun. apply Nat.ltb_ge in Hlt.
    repeat split; try done. intros; lia.
Qed.

Lemma removeFolderWithRetries_frame p maxRetries delayMs rmThrows w :
  let r := removeFolderWithRetries p maxRetries delayMs rmThrows w in
  instances (snd r) = instances w ∧ qrCodes (snd r) = qrCodes w ∧
  clients (snd r) = clients w ∧ nextHandle (snd r) = nextHandle w ∧
  (if fst r then ((p ∉ fs (snd r)) ∧
                  (fs (snd r) = fs w ∨ fs (snd r) = rmTree p (fs w)))
   else (fs (snd r) = fs w ∧ ∀ j, j < maxRetries → rmThrows j = true)).
Proof.
  unfold removeFolderWithRetries.
  destruct (removeLoop_total p maxRetries delayMs rmThrows
              (S maxRetries) 0 w) as [[b w'] Hrun]; [lia|].
  rewrite Hrun. simpl.
  apply removeLoop_frame in Hrun.
  destruct Hrun as (Hi & Hq & Hc & Hn & Hb). repeat split; try done.
  destruct b; [done|]. destruct Hb as [Hfs Hall]. split; [done|].
  intros j Hj. apply Hall; lia.
Qed.

Lemma elem_of_rmTree p q files :
  q ∈ rmTree p files ↔ ¬ p `prefix_of` q ∧ q ∈ files.
Proof. unfold rmTree. by rewrite elem_of_filter. Qed.

(** ** Reset *)

(** The registry and the QR map after the body of a reset. *)
Lemma resetBody_maps APP_ROOT instanceId env w :
  let w' := snd (resetBody APP_ROOT instanceId env w) in
  instances w' !! instanceId = None ∧ qrCodes w' !! instanceId = None.
Proof.
  unfold resetBody.
  match goal with
  | |- context [removeFolderWithRetries ?p ?m ?d ?f ?w0] =>
    pose proof (removeFolderWithRetries_frame p m d f w0) as Hframe;
    destruct (removeFolderWithRetries p m d f w0) as [b w3]
  end.
  simpl in Hframe. destruct Hframe as (Hi & Hq & _).
  assert (∀ x : World, (if pkillThrows env then x else x) = x) as Hif
    by (intros; by destruct (pkillThrows env)).
  rewrite Hif. simpl. rewrite Hi, Hq. simpl.
  split; [|apply lookup_delete_eq].
  destruct (instances w !! instanceId) as [client|] eqn:Hget; simpl.
  - apply lookup_delete_eq.
  - done.
Qed.

(** *** The body and the event loop *)

Lemma removeLoopTurns_total p maxRetries delayMs rmThrows turn :
  ∀ fuel attempts w,
    maxRetries - attempts < fuel →
    is_Some (removeLoopTurns fuel p maxRetries delayMs rmThrows turn
               attempts w).
Proof.
  induction fuel as [|fuel IH]; intros attempts w Hfuel; [lia|].
  simpl. destruct (attempts <? maxRetries) eqn:Hlt; [|by eexists].
  apply Nat.ltb_lt in Hlt.
  destruct (existsSync p w); [|by eexists].
  destruct (rmThrows attempts); [|by eexists].
  destruct (maxRetries <=? S attempts) eqn:Hle; [by eexists|].
  apply IH. lia.
Qed.

(** With nothing else running, the loop is [removeLoop]. *)
Lemma removeLoopTurns_quiet p maxRetries delayMs rmThrows :
  ∀ fuel attempts w,
    removeLoopTurns fuel p maxRetries delayMs rmThrows (λ _ w, w) attempts w
    = removeLoop fuel p maxRetries delayMs rmThrows attempts w.
Proof.
  induction fuel as [|fuel IH]; intros attempts w; [done|].
  simpl. by rewrite IH.
Qed.

Lemma resetBodyTurns_quiet APP_ROOT instanceId env w :
  resetBodyTurns APP_ROOT instanceId env quietTurns w
  = resetBody APP_ROOT instanceId env w.
Proof.
  unfold resetBodyTurns, resetBody, removeFolderWithRetriesTurns,
    removeFolderWithRetries, quietTurns.
  cbn [whileDestroying whileWaiting afterRemoval].
  by rewrite removeLoopTurns_quiet.
Qed.

(** The removal itself never writes to the two maps; what they hold when
    it returns is what the turns in between made of them. *)
Lemma removeLoopTurns_keepsOut id p maxRetries delayMs rmThrows turn :
  (∀ n, keepsOut id (turn n)) →
  ∀ fuel attempts w b w',
    removeLoopTurns fuel p maxRetries delayMs rmThrows turn attempts w
    = Some (b, w') →
    unregistered id w → unregistered id w'.
Proof.
  intros Hturn.
  induction fuel as [|fuel IH]; intros attempts w b w' Hrun Hw; [done|].
  simpl in Hrun.
  destruct (attempts <? maxRetries); [|by inversion Hrun; subst].
  destruct (existsSync p w); [|by inversion Hrun; subst].
  destruct (rmThrows attempts); [|by inversion Hrun; subst].
  destruct (maxRetries <=? S attempts); [by inversion Hrun; subst|].
  apply IH in Hrun; [done|]. by apply Hturn.
Qed.

Lemma resetBodyTurns_maps APP_ROOT id env turns w :
  (∀ n, keepsOut id (whileWaiting turns n)) →
  keepsOut id (afterRemoval turns) →
  unregistered id (snd (resetBodyTurns APP_ROOT id env turns w)).
Proof.
  intros Hwait Hafter. unfold resetBodyTurns.
  match goal with
  | |- context [removeFolderWithRetriesTurns ?p ?m ?d ?f ?t ?w0] =>
    assert (unregistered id w0) as Hw0;
    [| assert (unregistered id
                 (snd (removeFolderWithRetriesTurns p m d f t w0))) as Hw3;
       [| destruct (removeFolderWithRetriesTurns p m d f t w0) as [b w3] ] ]
  end.
  - split; simpl; [|apply lookup_delete_eq].
    destruct (instances w !! id) as [client|] eqn:Hget; simpl.
    + apply lookup_delete_eq.
    + done.
  - unfold removeFolderWithRetriesTurns.
    match goal with
    | |- context [removeLoopTurns ?fl ?p ?m ?d ?f ?t ?a ?w0] =>
      destruct (removeLoopTurns_total p m d f t fl a w0) as [[b w3] Hrun];
      [unfold defaultMaxRetries; lia|]
    end.
    rewrite Hrun. simpl.
    by eapply removeLoopTurns_keepsOut in Hrun.
  - simpl in Hw3. apply Hafter in Hw3.
    assert (∀ x : World, (if pkillThrows env then x else x) = x) as Hif
      by (intros; by destruct (pkillThrows env)).
    rewrite Hif. simpl. exact Hw3.
Qed.

(** C5, as stated: after the queued operation of [resetInstance(id)]
    completes, [id] is in neither map.  The body deletes both entries
    and then waits for the removal; what runs during that wait can put
    them back.  First, ["alice"] is being created when her reset runs:
    the reset finds nothing to destroy, and the creation registers its
    client before the reset completes.  Second, ["alice"] is registered
    and her profile directory stays locked: a QR challenge that arrives
    during the first retry wait is still there at the end. *)
Lemma resetInstance_leaves_id_registered :
  (instances pendingWorld !! "alice" = None ∧
   instances (snd (resetBodyTurns demoRoot "alice" calmReset
                     creationResumes pendingWorld)) !! "alice" = Some 0 ∧
   qrCodes (snd (resetBodyTurns demoRoot "alice" calmReset
                   creationResumes pendingWorld)) !! "alice"
   = Some "2@late") ∧
  (instances aliceWorld !! "alice" = Some 0 ∧
   qrCodes (snd (resetBodyTurns demoRoot "alice" lockedReset lateQr
                   aliceWorld)) !! "alice" = Some "2@late").
Proof. split; [split; [|split] | split]; vm_compute; reflexivity. Qed.

(** C5, amended.  When the body of [resetInstance(id)] has run, [id] is in
    neither the Registry nor the QR map, provided that nothing which runs
    while the body waits after its two deletes (during the retry waits of
    the removal and when the removal hands back control) puts [id] into
    one of them.  This holds whether [destroy()] threw or not, whatever
    ran while the client was being destroyed, whether the removal and the
    process kill succeeded, and whether [id] was registered. *)
Theorem resetInstance_deregisters
    (APP_ROOT : Path) (id : string) (env : ResetEnv) (turns : ResetTurns)
    (w : World) :
  (∀ n, keepsOut id (whileWaiting turns n)) →
  keepsOut id (afterRemoval turns) →
  instances (snd (resetBodyTurns APP_ROOT id env turns w)) !! id = None ∧
  qrCodes (snd (resetBodyTurns APP_ROOT id env turns w)) !! id = None.
Proof. apply resetBodyTurns_maps. Qed.

Lemma keepsOut_other_qr id other qr :
  other ≠ id → keepsOut id (withQrCodes (insert other qr)).
Proof.
  intros Hne w [Hi Hq]. split; simpl; [done|].
  by rewrite lookup_insert_ne.
Qed.

Lemma resetInstance_deregisters_witness :
  instances (snd (resetBodyTurns demoRoot "alice" lockedReset bobTurns
                    aliceWorld)) !! "alice" = None ∧
  qrCodes (snd (resetBodyTurns demoRoot "alice" lockedReset bobTurns
                  aliceWorld)) !! "alice" = None.
Proof.
  apply (resetInstance_deregisters demoRoot "alice" lockedReset bobTurns
           aliceWorld).
  - intros n. by apply keepsOut_other_qr.
  - by apply keepsOut_other_qr.
Defined.

(** A calm reset of ["alice"]: one [destroy()], one removal, one kill. *)
Example resetBody_calm_effects :
  effects (snd (resetBody demoRoot "alice" calmReset aliceWorld))
  = [EInitialize 0; EDestroy 0;
     ERmSync (profileDir demoRoot "alice") true; EPkill "alice"].
Proof. vm_compute. reflexivity. Qed.

(** The client's own actions never touch the file system. *)
Lemma clientActs_fs client acts :
  ∀ w, fs (clientActs client acts w) = fs w.
Proof.
  unfold clientActs. induction acts as [|a acts IH]; intros w; [done|].
  simpl. rewrite IH. destruct a as [i|ev]; simpl; [done|].
  unfold emit. destruct (clients w !! client); [|done].
  by destruct ev.
Qed.

Lemma resetBody_fs APP_ROOT instanceId env w :
  let w' := snd (resetBody APP_ROOT instanceId env w) in
  (fs w' = fs w ∨ fs w' = rmTree (profileDir APP_ROOT instanceId) (fs w)) ∧
  ((∃ k, k < defaultMaxRetries ∧ rmThrows env k = false) →
   profileDir APP_ROOT instanceId ∉ fs w').
Proof.
  unfold resetBody, profileDir.
  set (p := path_join (CHROME_PROFILES_PATH APP_ROOT) instanceId).
  set (w2 := withQrCodes (delete instanceId) _).
  assert (fs w2 = fs w) as Hfs2.
  { subst w2. simpl. destruct (instances w !! instanceId); [|done].
    simpl. destruct (destroyThrows env); by rewrite clientActs_fs. }
  pose proof (removeFolderWithRetries_frame p defaultMaxRetries
                defaultDelayMs (rmThrows env) w2) as Hf.
  simpl in Hf.
  destruct (removeFolderWithRetries p defaultMaxRetries defaultDelayMs
              (rmThrows env) w2) as [b w3].
  simpl in Hf. destruct Hf as (_ & _ & _ & _ & Hb).
  assert (fs (snd (Fulfilled JUndefined,
                   if pkillThrows env
                   then logEffect (EPkill instanceId) w3
                   else logEffect (EPkill instanceId) w3)) = fs w3) as Hlast
    by (simpl; by destruct (pkillThrows env)).
  simpl. simpl in Hlast. rewrite Hlast, <- Hfs2.
  destruct b.
  - destruct Hb as [Hgone Hcases]. split; [done|]. by intros _.
  - destruct Hb as [Hsame Hall]. split; [by left|].
    intros (k & Hk & Hok). rewrite Hall in Hok; done.
Qed.


(** *** Paths *)









(** An id that is not a plain segment sends the removal elsewhere: for
    [..] it is the session root that goes, with every credential
    directory in it. *)
Example resetBody_dotdot_removes_session_root :
  profileDir demoRoot ".." = SESSIONS_PATH demoRoot ∧
  profileDir demoRoot "" = CHROME_PROFILES_PATH demoRoot ∧
  existsSync (sessionDir demoRoot "alice")
    (snd (resetBody demoRoot ".." calmReset aliceWorld)) = false.
Proof. split; [reflexivity|]. split; [reflexivity|]. vm_compute. reflexivity. Qed.




(** ** Creation *)

(** C1 on the code: when [initialize()] rejects, [createInstance(id)]
    still fulfils with the new handle and leaves that handle registered
    under [id]; only the QR entry is gone.  The [catch] block deregisters
    [id], and the unconditional [instances.set(id, client)] after it
    registers the handle again. *)
Theorem createInstance_failed_init_stays_registered
    (APP_ROOT : Path) (id : string) (acts : list ClientAction)
    (err : string) (w : World) :
  instances w !! id = None →
  let r := createInstance APP_ROOT id
             {| initActions := acts; initThrows := Some err |} w in
  fst r = Fulfilled (nextHandle w) ∧
  instances (snd r) !! id = Some (nextHandle w) ∧
  qrCodes (snd r) !! id = None.
Proof.
  intros Hfresh. unfold createInstance. rewrite Hfresh. simpl.
  split; [done|]. split.
  - apply lookup_insert_eq.
  - apply lookup_delete_eq.
Qed.

Lemma createInstance_failed_init_stays_registered_witness :
  fst (createInstance demoRoot "alice" failingInit demoWorld) = Fulfilled 0 ∧
  instances (snd (createInstance demoRoot "alice" failingInit demoWorld))
    !! "alice" = Some 0 ∧
  qrCodes (snd (createInstance demoRoot "alice" failingInit demoWorld))
    !! "alice" = None.
Proof.
  apply (createInstance_failed_init_stays_registered demoRoot "alice"
           [Emit (EvQr "2@challenge")] "Protocol error" demoWorld).
  reflexivity.
Defined.

(** After a failed initialisation the id counts as existing, and the next
    creation attempt is skipped. *)
Example createInstance_after_failed_init :
  let w1 := snd (createInstance demoRoot "alice" failingInit demoWorld) in
  createInstance demoRoot "alice" quietInit w1 = (Fulfilled 0, w1) ∧
  effects w1
  = [EInitialize 0; EStatus "alice" "qr" None None None;
     EStatus "alice" "error" None None None].
Proof. split; vm_compute; reflexivity. Qed.

(** C3.  While a handle is registered under [id], [createInstance(id)]
    fulfils with that very handle and leaves the whole state as it was: the
    Registry is not modified, no client is built and no [initialize()] is
    issued.  In particular a second call right after a first one returns
    the handle the first one returned.  The Registry being a map, it holds
    at most one handle per id. *)
Theorem createInstance_idempotent
    (APP_ROOT : Path) (id : string) (ib : InitBehaviour) (w : World) :
  (∀ h, instances w !! id = Some h →
        createInstance APP_ROOT id ib w = (Fulfilled h, w)) ∧
  (∀ first,
     createInstance APP_ROOT id ib (snd (createInstance APP_ROOT id first w))
     = createInstance APP_ROOT id first w).
Proof.
  split.
  - intros h Hh. unfold createInstance. by rewrite Hh.
  - intros first. unfold createInstance at 2 3.
    destruct (instances w !! id) as [h|] eqn:Hget.
    + simpl. unfold createInstance. by rewrite Hget.
    + simpl. unfold createInstance. simpl. by rewrite lookup_insert_eq.
Qed.

Lemma createInstance_idempotent_witness :
  createInstance demoRoot "alice" failingInit aliceWorld
  = (Fulfilled 0, aliceWorld).
Proof.
  apply (proj1 (createInstance_idempotent demoRoot "alice" failingInit
                  aliceWorld)).
  reflexivity.
Defined.

(** ** Events and status reads *)




(** ** Admission *)

Lemma Qgtb_false a b : Qgtb a b = false ↔ (a <= b)%Q.
Proof.
  unfold Qgtb. rewrite negb_false_iff. apply Qle_bool_iff.
Qed.

(** C8, as stated: admission is granted only if both figures are under
    their thresholds.  With the default thresholds 80/80, a CPU sample of
    0.8, which the code scales to exactly 80, is admitted (RAM at 50%)
    although 80 is not under 80. *)
Lemma canCreateInstance_admits_at_threshold :
  canCreateInstance defaultMaxCpu defaultMaxRamPercent (8 / 10) 8 4 = true ∧
  (8 / 10 * 100 <? defaultMaxCpu)%float = false ∧
  (8 / 10 * 100 =? defaultMaxCpu)%float = true.
Proof. split; [|split]; vm_compute; reflexivity. Qed.

(** The figures are doubles.  With 44 of 100 units free the quotient
    (100 - 44) / 100 * 100 comes out just above 56, and a threshold of 56
    refuses; an empty reading (0 of 0) gives NaN, which no threshold
    refuses. *)
Example canCreateInstance_rounding :
  canCreateInstance 80 56 (5 / 10) 100 44 = false ∧
  (56 <? ramPercent 100 44)%float = true ∧
  canCreateInstance 80 56 (5 / 10) 0 0 = true.
Proof. split; [|split]; vm_compute; reflexivity. Qed.

(** C8, amended.  [canCreateInstance(maxCpu, maxRamPercent)] resolves to
    [true] exactly when neither the sampled CPU percentage
    [cpuPercent * 100] nor the RAM percentage
    [(total - free) / total * 100], both computed in double arithmetic,
    compares greater than its threshold; a figure equal to its threshold
    is admitted.  With thresholds 80/80 and the RAM figure at 50, it
    resolves to [false] for a CPU sample of 0.9 and to [true] for one of
    0.5. *)
Theorem canCreateInstance_thresholds
    (maxCpu maxRamPercent cpuPercent totalMem freeMem : float) :
  (canCreateInstance maxCpu maxRamPercent cpuPercent totalMem freeMem = true
   ↔ (maxCpu <? cpuPercent * 100)%float = false ∧
     (maxRamPercent <? ramPercent totalMem freeMem)%float = false) ∧
  (ramPercent totalMem freeMem = 50%float →
   canCreateInstance 80 80 (9 / 10) totalMem freeMem = false ∧
   canCreateInstance 80 80 (5 / 10) totalMem freeMem = true).
Proof.
  split.
  - unfold canCreateInstance. by rewrite negb_true_iff, orb_false_iff.
  - intros Hram. unfold canCreateInstance. rewrite Hram.
    split; vm_compute; reflexivity.
Qed.

Example canCreateInstance_default_thresholds :
  ramPercent 16 8 = 50%float ∧
  canCreateInstance defaultMaxCpu defaultMaxRamPercent (9 / 10) 16 8 = false ∧
  canCreateInstance defaultMaxCpu defaultMaxRamPercent (5 / 10) 16 8 = true.
Proof. split; [|split]; vm_compute; reflexivity. Qed.

(** ** Operation queue *)

Section QueueProperties.

Context {W E : Type}.
Implicit Types (s : QState W E) (h : list QEvent).

Lemma endedBefore_mono h h' bound d d' :
  endedBefore h bound d → (∀ x, x ∈ h → x ∈ h') → d ≤ d' →
  endedBefore h' bound d'.
Proof.
  intros Hend Hsub Hle p Hp. destruct (Hend p Hp) as (t & r & Hin & Ht).
  exists t, r. split; [by apply Hsub | lia].
Qed.

Lemma QInv_init (w : W) : QInv (@initQ W E w).
Proof.
  exists 0. unfold QInvAt; simpl.
  do 5 (split; [done|]). split.
  - intros p Hp. lia.
  - intros p t r Hin. by apply elem_of_nil in Hin.
Qed.

(** Entering the loop test with no activation suspended. *)
Lemma loopHead_QInv k s :
  loops s = [] → queueRunning s = true →
  k + length (instanceQueue s) = nextPromise s →
  map promise (instanceQueue s) = seq k (length (instanceQueue s)) →
  ordered (history s) →
  endedBefore (history s) k (now s) →
  endedOnly (history s) (settled s) k →
  QInv (loopHead s).
Proof.
  intros Hloops Hrun Hlen Hmap Hord Hbefore Honly. unfold loopHead.
  destruct (instanceQueue s) as [|e rest] eqn:Hq.
  - exists k. unfold QInvAt; simpl. rewrite Hloops. simpl in *.
    by do 6 (split; [done|]).
  - exists (S k). simpl in Hlen, Hmap. injection Hmap as Hpe Hrest.
    unfold QInvAt; simpl. rewrite Hloops. simpl.
    split; [lia|]. split; [done|]. split.
    { split; [|done]. rewrite Hpe. exact Hbefore. }
    split; [done|]. split; [by rewrite Hpe|]. split.
    + rewrite Hpe. eapply endedBefore_mono; [exact Hbefore| |lia].
      intros x Hx. by apply elem_of_cons; right.
    + intros p t r Hin. apply elem_of_cons in Hin as [Heq|Hin]; [done|].
      rewrite Hpe. by apply Honly in Hin.
Qed.

(** What the invariant says about the suspended activations. *)
Lemma QInv_loops s :
  QInv s →
  (loops s = [] ∧ queueRunning s = false) ∨
  (∃ l, loops s = [l] ∧ queueRunning s = true).
Proof.
  intros (k & _ & _ & _ & Hl).
  destruct (loops s) as [|[e|due] [|? ?]]; try done.
  - left. by destruct Hl.
  - right. exists (AwaitFn e). by destruct Hl.
  - right. exists (AwaitDelay due). by destruct Hl.
Qed.

Lemma QInv_enqueue f s : QInv s → QInv (snd (enqueue f s)).
Proof.
  intros (k & Hlen & Hmap & Hord & Hl). unfold enqueue, processQueue.
  simpl. destruct (queueRunning s) eqn:Hrun.
  - exists k. unfold QInvAt; simpl.
    rewrite length_app, map_app, seq_app, Hmap. simpl.
    split; [lia|]. split; [by rewrite <- Hlen|]. split; [done|].
    destruct (loops s) as [|[e|due] [|? ?]]; try done.
    destruct Hl as [Hf _]. congruence.
  - destruct (loops s) as [|[e|due] [|? ?]] eqn:Hloops; try done;
      try (destruct Hl as [Hf _]; congruence).
    destruct Hl as (_ & Hq & Hbefore & Honly).
    rewrite Hq in *. simpl in *.
    apply (loopHead_QInv k); simpl; try done.
    + lia.
    + f_equal. lia.
Qed.

Lemma QInv_afterFn e env s :
  loops s = [AwaitFn e] → QInv s → QInv (afterFn 0 e env s).
Proof.
  intros Hloops (k & Hlen & Hmap & Hord & Hl). rewrite Hloops in Hl.
  destruct Hl as (Hrun & Hk & Hbefore & Honly).
  unfold afterFn. destruct (fn e env (world s)) as [r w1].
  exists k. unfold QInvAt; simpl. rewrite Hloops. simpl.
  do 5 (split; [done|]). split.
  - intros p Hp. destruct (decide (p = promise e)) as [->|Hne].
    + exists (now s), r. split; [by apply elem_of_cons; left | lia].
    + destruct (Hbefore p) as (t & r' & Hin & Ht); [lia|].
      exists t, r'. split; [by apply elem_of_cons; right | lia].
  - intros p t r' Hin. apply elem_of_cons in Hin as [Heq|Hin].
    + injection Heq as -> -> ->. split; [lia|]. apply lookup_insert_eq.
    + apply Honly in Hin as [Hp Hs]. split; [lia|].
      rewrite lookup_insert_ne; [done | lia].
Qed.

Lemma QInv_afterDelay due s :
  loops s = [AwaitDelay due] → due ≤ now s → QInv s →
  QInv (afterDelay 0 s).
Proof.
  intros Hloops Hdue (k & Hlen & Hmap & Hord & Hl). rewrite Hloops in Hl.
  destruct Hl as (Hrun & _ & Hbefore & Honly).
  unfold afterDelay. apply (loopHead_QInv k); simpl; try done.
  - by rewrite Hloops.
  - eapply endedBefore_mono; [exact Hbefore | done | done].
Qed.

Lemma QInv_step s ev : QInv s → QInv (step s ev).
Proof.
  intros Hinv. destruct ev as [f|k env|k|ms|f]; simpl.
  - by apply QInv_enqueue.
  - destruct (loops s !! k) as [[e|due]|] eqn:Hk; try done.
    destruct (QInv_loops s Hinv) as [[Hl _]|(l & Hl & _)];
      rewrite Hl in Hk; [done|].
    destruct k; [|done]. injection Hk as ->. by apply QInv_afterFn.
  - destruct (loops s !! k) as [[e|due]|] eqn:Hk; try done.
    destruct (due <=? now s) eqn:Hdue; [|done].
    apply Nat.leb_le in Hdue.
    destruct (QInv_loops s Hinv) as [[Hl _]|(l & Hl & _)];
      rewrite Hl in Hk; [done|].
    destruct k; [|done]. injection Hk as ->.
    by apply (QInv_afterDelay due).
  - destruct Hinv as (k & Hlen & Hmap & Hord & Hl).
    exists k. unfold QInvAt; simpl. do 3 (split; [done|]).
    destruct (loops s) as [|[e|due] [|? ?]]; try done.
    + destruct Hl as (? & ? & Hbefore & ?). do 2 (split; [done|]).
      split; [|done]. eapply endedBefore_mono; [exact Hbefore|done|lia].
    + destruct Hl as (? & ? & Hbefore & ?). do 2 (split; [done|]).
      split; [|done]. eapply endedBefore_mono; [exact Hbefore|done|lia].
    + destruct Hl as (? & ? & Hbefore & ?). split; [done|].
      split; [lia|]. done.
  - destruct Hinv as (k & Hlen & Hmap & Hord & Hl). by exists k.
Qed.

Lemma QInv_run evs : ∀ s, QInv s → QInv (run evs s).
Proof.
  unfold run. induction evs as [|ev evs IH]; intros s Hinv; [done|].
  simpl. apply IH. by apply QInv_step.
Qed.

Lemma QInv_ended_settled s p t r :
  QInv s → Ended p t r ∈ history s → settled s !! p = Some r.
Proof.
  intros (k & _ & _ & _ & Hl) Hin.
  destruct (loops s) as [|[e|due] [|? ?]]; try done;
    destruct Hl as (_ & _ & _ & Honly); by apply Honly in Hin as [_ ?].
Qed.

Lemma QInv_one_loop s : QInv s → length (loops s) ≤ 1.
Proof.
  intros Hinv. destruct (QInv_loops s Hinv) as [[-> _]|(l & -> & _)];
    simpl; lia.
Qed.

Lemma ordered_split h :
  ordered h →
  ∀ newer older pB tB,
    h = newer ++ Began pB tB :: older →
    ∀ pA, pA < pB →
          ∃ tA r, Ended pA tA r ∈ older ∧ tA + cooldownMs ≤ tB.
Proof.
  intros Hord newer. revert h Hord.
  induction newer as [|x newer IH]; intros h Hord older pB tB -> pA HpA.
  - simpl in Hord. destruct Hord as [Hhead _]. by apply Hhead.
  - simpl in Hord. eapply IH; [|reflexivity|exact HpA].
    destruct x; [by destruct Hord | done].
Qed.

Lemma nextPromise_loopHead s : nextPromise (loopHead s) = nextPromise s.
Proof. unfold loopHead. by destruct (instanceQueue s). Qed.

Lemma nextPromise_enqueue f s :
  fst (enqueue f s) = nextPromise s ∧
  nextPromise (snd (enqueue f s)) = S (nextPromise s).
Proof.
  split; [done|]. unfold enqueue, processQueue. simpl.
  destruct (queueRunning s); [done|]. by rewrite nextPromise_loopHead.
Qed.

Lemma nextPromise_step s ev : nextPromise s ≤ nextPromise (step s ev).
Proof.
  destruct ev as [f|k env|k|ms|f]; [|simpl..]; try done.
  - unfold step. destruct (nextPromise_enqueue f s) as [_ ->]. lia.
  - destruct (loops s !! k) as [[e|due]|]; try done.
    unfold afterFn. by destruct (fn e env (world s)).
  - destruct (loops s !! k) as [[e|due]|]; try done.
    destruct (due <=? now s); [|done].
    unfold afterDelay. by rewrite nextPromise_loopHead.
Qed.

Lemma nextPromise_run evs : ∀ s, nextPromise s ≤ nextPromise (run evs s).
Proof.
  unfold run. induction evs as [|ev evs IH]; intros s; [done|].
  simpl. etrans; [apply (nextPromise_step s ev) | apply IH].
Qed.

(** C4.  Let [A] and then [B] be handed to [enqueue], with anything
    happening before, between and after.  Whenever [B] has begun, [A]
    had ended before that (its caller's promise is settled, fulfilled or
    rejected) and at least the 500 ms cooldown lies between the end of
    [A] and the beginning of [B], whatever the outcome of [A].  At every
    moment at most one activation of the drain loop is alive. *)
Theorem queue_fifo_with_cooldown
    (w0 : W) (evs1 evs2 evs3 : list (Event W E)) (fA fB : @Task W E) :
  let sA := run evs1 (initQ w0) in
  let pA := fst (enqueue fA sA) in
  let sB := run evs2 (snd (enqueue fA sA)) in
  let pB := fst (enqueue fB sB) in
  let s := run evs3 (snd (enqueue fB sB)) in
  (∀ tB newer older,
     history s = newer ++ Began pB tB :: older →
     ∃ tA r, Ended pA tA r ∈ older ∧ settled s !! pA = Some r ∧
             tA + 500 ≤ tB) ∧
  (∀ evs, length (loops (run evs (@initQ W E w0))) ≤ 1).
Proof.
  intros sA pA sB pB s. split.
  - assert (QInv s) as Hinv.
    { subst s sB sA. repeat (first [apply QInv_run | apply QInv_enqueue]).
      apply QInv_init. }
    intros tB newer older Hsplit.
    assert (pA < pB) as Hlt.
    { subst pA pB. simpl.
      pose proof (nextPromise_run evs2 (snd (enqueue fA sA))) as Hmono.
      fold sB in Hmono.
      destruct (nextPromise_enqueue fA sA) as [_ Hnext]. lia. }
    destruct Hinv as (k & Hk). pose proof Hk as (_ & _ & Hord & _).
    destruct (ordered_split _ Hord newer older pB tB Hsplit pA Hlt)
      as (tA & r & Hin & Ht).
    exists tA, r. split; [done|]. split; [|exact Ht].
    apply (QInv_ended_settled s pA tA r); [by exists k|].
    rewrite Hsplit. apply elem_of_app; right. by apply elem_of_cons; right.
  - intros evs. apply QInv_one_loop, QInv_run, QInv_init.
Qed.

(** *** Promises and the functions they stand for *)

Lemma TaskInv_init (w : W) : TaskInv [] (@initQ W E w).
Proof.
  unfold TaskInv; simpl. split; [done|]. split.
  - intros e He. by apply elem_of_nil in He.
  - split; [intros e He; by apply elem_of_nil in He|].
    intros p r Hp. by rewrite lookup_empty in Hp.
Qed.

Lemma TaskInv_weaken subs extra s :
  length (subs ++ extra) = nextPromise s →
  (∀ e, e ∈ instanceQueue s → subs !! promise e = Some (fn e)) →
  (∀ e, AwaitFn e ∈ loops s → subs !! promise e = Some (fn e)) →
  (∀ p r, settled s !! p = Some r →
          ∃ f env w, subs !! p = Some f ∧ r = fst (f env w)) →
  TaskInv (subs ++ extra) s.
Proof.
  intros Hlen Hq Hl Hs. split; [done|]. split; [|split].
  - intros e He. by apply lookup_app_l_Some, Hq.
  - intros e He. by apply lookup_app_l_Some, Hl.
  - intros p r Hp. destruct (Hs p r Hp) as (f & env & w & Hf & Hr).
    exists f, env, w. split; [by apply lookup_app_l_Some | done].
Qed.

Lemma TaskInv_loopHead subs s : TaskInv subs s → TaskInv subs (loopHead s).
Proof.
  intros (Hlen & Hq & Hl & Hs). unfold loopHead.
  destruct (instanceQueue s) as [|e rest] eqn:Hqueue.
  - split; [done|]. split; [|done].
    simpl. intros e He. by apply elem_of_nil in He.
  - split; [done|]. split; [|split]; simpl.
    + intros e' He'. apply Hq. by apply elem_of_cons; right.
    + intros e' He'. apply elem_of_app in He' as [He'|He'].
      * by apply Hl.
      * apply list_elem_of_singleton in He'. injection He' as ->.
        apply Hq. by apply elem_of_cons; left.
    + done.
Qed.

Lemma TaskInv_enqueue subs f s :
  TaskInv subs s → TaskInv (subs ++ [f]) (snd (enqueue f s)).
Proof.
  intros (Hlen & Hq & Hl & Hs).
  assert (TaskInv (subs ++ [f])
            {| world := world s;
               instanceQueue :=
                 instanceQueue s ++ [{| fn := f; promise := nextPromise s |}];
               queueRunning := true; loops := loops s;
               settled := settled s; nextPromise := S (nextPromise s);
               now := now s; history := history s |}) as Hnew.
  { split; [rewrite length_app; simpl; lia|]. split; [|split]; simpl.
    - intros e He. apply elem_of_app in He as [He|He].
      + by apply lookup_app_l_Some, Hq.
      + apply list_elem_of_singleton in He. subst e. simpl.
        rewrite <- Hlen. by apply list_lookup_middle.
    - intros e He. by apply lookup_app_l_Some, Hl.
    - intros p r Hp. destruct (Hs p r Hp) as (g & env & w & Hg & Hr).
      exists g, env, w. split; [by apply lookup_app_l_Some | done]. }
  unfold enqueue, processQueue. simpl.
  destruct (queueRunning s) eqn:Hrun.
  - destruct Hnew as (H1 & H2 & H3 & H4). by split.
  - by apply TaskInv_loopHead.
Qed.

Lemma elem_of_delete_list {A} (l : list A) k x :
  x ∈ delete k l → x ∈ l.
Proof.
  revert k. induction l as [|y l IH]; intros k Hx; [by destruct k|].
  destruct k as [|k]; simpl in Hx.
  - by apply elem_of_cons; right.
  - apply elem_of_cons in Hx as [->|Hx].
    + by apply elem_of_cons; left.
    + apply elem_of_cons; right. by apply (IH k).
Qed.

Lemma TaskInv_step subs s ev :
  TaskInv subs s → ∃ extra, TaskInv (subs ++ extra) (step s ev).
Proof.
  intros Hinv. destruct ev as [f|k env|k|ms|f]; [|simpl..].
  - exists [f]. by apply TaskInv_enqueue.
  - exists []. rewrite app_nil_r.
    destruct (loops s !! k) as [[e|due]|] eqn:Hk; try done.
    destruct Hinv as (Hlen & Hq & Hl & Hs).
    unfold afterFn. destruct (fn e env (world s)) as [r w1] eqn:Hfn.
    split; [done|]. split; [done|]. split; simpl.
    + intros e' He'. apply elem_of_app in He' as [He'|He'].
      * by apply Hl, (elem_of_delete_list _ k).
      * by apply list_elem_of_singleton in He'.
    + intros p r' Hp. destruct (decide (p = promise e)) as [->|Hne].
      * rewrite lookup_insert_eq in Hp. injection Hp as <-.
        exists (fn e), env, (world s). split; [|by rewrite Hfn].
        apply Hl. by apply list_elem_of_lookup_2 with k.
      * rewrite lookup_insert_ne in Hp by done. by apply Hs.
  - exists []. rewrite app_nil_r.
    destruct (loops s !! k) as [[e|due]|] eqn:Hk; try done.
    destruct (due <=? now s); [|done].
    unfold afterDelay. apply TaskInv_loopHead.
    destruct Hinv as (Hlen & Hq & Hl & Hs).
    split; [done|]. split; [done|]. split; [|done]. simpl.
    intros e' He'. by apply Hl, (elem_of_delete_list _ k).
  - exists []. by rewrite app_nil_r.
  - exists []. by rewrite app_nil_r.
Qed.

Lemma TaskInv_run evs :
  ∀ subs s, TaskInv subs s → ∃ extra, TaskInv (subs ++ extra) (run evs s).
Proof.
  unfold run. induction evs as [|ev evs IH]; intros subs s Hinv.
  - exists []. by rewrite app_nil_r.
  - simpl. destruct (TaskInv_step subs s ev Hinv) as (x1 & H1).
    destruct (IH _ _ H1) as (x2 & H2).
    exists (x1 ++ x2). by rewrite app_assoc.
Qed.

(** A settled promise holds an outcome of the function it was handed
    out for. *)
Lemma enqueue_outcome (w0 : W) (before after : list (Event W E))
    (f : @Task W E) (r : Outcome JsVal) :
  let s0 := run before (initQ w0) in
  settled (run after (snd (enqueue f s0))) !! fst (enqueue f s0) = Some r →
  ∃ env w, r = fst (f env w).
Proof.
  intros s0 Hr.
  destruct (TaskInv_run before [] (initQ w0) (TaskInv_init w0))
    as (subs & H0).
  simpl in H0. fold s0 in H0.
  pose proof (TaskInv_enqueue subs f s0 H0) as H1.
  destruct (TaskInv_run after _ _ H1) as (extra & H2).
  destruct H2 as (_ & _ & _ & Hs).
  destruct (Hs _ _ Hr) as (g & env & w & Hg & Hout).
  exists env, w. destruct H0 as (Hlen & _). simpl in Hg.
  rewrite <- Hlen in Hg.
  rewrite <- app_assoc in Hg. simpl in Hg.
  rewrite list_lookup_middle in Hg by done. by injection Hg as <-.
Qed.

(** *** Draining *)

Lemma run_app evs1 evs2 s : run (evs1 ++ evs2) s = run evs2 (run evs1 s).
Proof. unfold run. apply foldl_app. Qed.

Lemma pendingWork_loopHead s :
  loops s = [] →
  pendingWork (loopHead s) ≤ 2 * length (instanceQueue s).
Proof.
  intros Hl. unfold loopHead, pendingWork.
  destruct (instanceQueue s) as [|e rest]; simpl; rewrite Hl; simpl; lia.
Qed.

(** One turn of a cooperative environment brings a busy queue closer to
    being drained. *)
Lemma drainTurn_progress env s :
  QInv s → loops s ≠ [] →
  pendingWork (run (drainTurn env) s) < pendingWork s.
Proof.
  intros Hinv Hbusy. pose proof Hinv as (k & _ & _ & _ & Hl).
  destruct (loops s) as [|[e|due] [|? ?]] eqn:Hloops; try done.
  - unfold drainTurn, run. simpl. rewrite Hloops. simpl.
    unfold afterFn. destruct (fn e env (world s)) as [r w1]. simpl.
    rewrite Hloops. simpl. rewrite Nat.leb_refl. unfold afterDelay. simpl.
    eapply Nat.le_lt_trans; [by apply pendingWork_loopHead|]. simpl.
    unfold pendingWork. rewrite Hloops. simpl. lia.
  - destruct Hl as (_ & Hdue & _). unfold cooldownMs in Hdue.
    unfold drainTurn, run. simpl. rewrite Hloops. simpl.
    rewrite Hloops. simpl. unfold cooldownMs.
    assert ((due <=? now s + 500) = true) as ->
      by (by apply Nat.leb_le).
    unfold afterDelay. simpl.
    eapply Nat.le_lt_trans; [by apply pendingWork_loopHead|]. simpl.
    unfold pendingWork. rewrite Hloops. simpl. lia.
Qed.

Lemma drainTurns_idle env n :
  ∀ s, loops s = [] → loops (run (drainTurns env n) s) = [].
Proof.
  induction n as [|n IH]; intros s Hl; [done|].
  change (@drainTurns W E env (S n))
    with (@drainTurn W E env ++ drainTurns env n).
  rewrite run_app. apply IH.
  unfold drainTurn, run. simpl. rewrite Hl. simpl. by rewrite Hl.
Qed.

Lemma drainTurns_drains env n :
  ∀ s, QInv s → pendingWork s ≤ n → loops (run (drainTurns env n) s) = [].
Proof.
  induction n as [|n IH]; intros s Hinv Hwork.
  - simpl. destruct (QInv_loops s Hinv) as [[Hl _]|(l & Hl & _)]; [done|].
    unfold pendingWork in Hwork. rewrite Hl in Hwork.
    destruct l; simpl in Hwork; lia.
  - destruct (decide (loops s = [])) as [Hl|Hl].
    + by apply drainTurns_idle.
    + change (@drainTurns W E env (S n))
        with (@drainTurn W E env ++ drainTurns env n).
      rewrite run_app. apply IH; [by apply QInv_run|].
      pose proof (drainTurn_progress env s Hinv Hl). lia.
Qed.

(** In a drained queue every promise handed out is settled. *)
Lemma QInv_idle_settled s p :
  QInv s → loops s = [] → p < nextPromise s → is_Some (settled s !! p).
Proof.
  intros (k & Hlen & _ & _ & Hl) Hidle Hp. rewrite Hidle in Hl.
  destruct Hl as (_ & Hq & Hbefore & Honly).
  rewrite Hq in Hlen. simpl in Hlen.
  destruct (Hbefore p) as (t & r & Hin & _); [lia|].
  exists r. by apply Honly in Hin as [_ ?].
Qed.

(** Whatever has happened, a cooperative environment gets the promise of
    an [enqueue] settled. *)
Lemma enqueue_settles (w0 : W) (before after : list (Event W E))
    (f : @Task W E) (env : E) :
  let s0 := run before (initQ w0) in
  ∃ rest,
    is_Some (settled (run (after ++ rest) (snd (enqueue f s0)))
               !! fst (enqueue f s0)).
Proof.
  intros s0. set (s1 := snd (enqueue f s0)). set (s2 := run after s1).
  assert (QInv s2) as Hinv.
  { subst s2 s1 s0. apply QInv_run, QInv_enqueue, QInv_run, QInv_init. }
  exists (drainTurns env (pendingWork s2)). rewrite run_app. fold s2.
  apply QInv_idle_settled.
  - by apply QInv_run.
  - by apply drainTurns_drains.
  - destruct (nextPromise_enqueue f s0) as [-> Hnext]. fold s1 in Hnext.
    pose proof (nextPromise_run after s1) as H1. fold s2 in H1.
    pose proof (nextPromise_run (drainTurns env (pendingWork s2)) s2).
    lia.
Qed.

End QueueProperties.

Lemma resetBody_outcome APP_ROOT instanceId env w :
  fst (resetBody APP_ROOT instanceId env w) = Fulfilled JUndefined.
Proof.
  unfold resetBody.
  by destruct (removeFolderWithRetries _ _ _ _ _) as [b w3].
Qed.

(** C9.  Take any moment in the life of the queue and call
    [resetInstance(id)].  Whatever happens afterwards, the promise it
    returned is never rejected: once settled it is fulfilled with
    [undefined], be [id] registered or not, be the removal or the kill
    successful or not.  And it does get fulfilled with [undefined] as soon
    as the environment lets the queued functions settle and the cooldown
    timers fire. *)
Theorem resetInstance_always_fulfils
    (APP_ROOT : Path) (w0 : World)
    (before after : list (Event World ResetEnv)) (id : string) :
  let s0 := run before (initQ w0) in
  let p := fst (resetInstance APP_ROOT id s0) in
  let s1 := snd (resetInstance APP_ROOT id s0) in
  (∀ r, settled (run after s1) !! p = Some r → r = Fulfilled JUndefined) ∧
  (∃ rest,
     settled (run (after ++ rest) s1) !! p = Some (Fulfilled JUndefined)).
Proof.
  intros s0 p s1.
  assert (∀ evs r, settled (run evs s1) !! p = Some r →
                   r = Fulfilled JUndefined) as Hsafe.
  { intros evs r Hr.
    destruct (enqueue_outcome w0 before evs (resetBody APP_ROOT id) r Hr)
      as (env & w & ->).
    apply resetBody_outcome. }
  split; [apply Hsafe|].
  destruct (enqueue_settles w0 before after (resetBody APP_ROOT id) calmReset)
    as (rest & r & Hr).
  exists rest. fold s0 in Hr. rewrite <- (Hsafe _ _ Hr). exact Hr.
Qed.

Lemma queue_fifo_with_cooldown_witness :
  ∃ tA r,
    Ended 0 tA r ∈ [Ended 0 0 (Rejected "boom"); Began 0 0] ∧
    settled
      (run [FnSettles 0 (); Tick 500; TimerFires 0]
         (snd (enqueue fulfillingTask
                 (run [] (snd (enqueue rejectingTask
                                 (run [] (initQ ()))))))))
      !! 0 = Some r ∧
    tA + 500 ≤ 500.
Proof.
  apply (proj1 (queue_fifo_with_cooldown () [] []
                  [FnSettles 0 (); Tick 500; TimerFires 0]
                  rejectingTask fulfillingTask)
           500 [] [Ended 0 0 (Rejected "boom"); Began 0 0]).
  reflexivity.
Defined.

Lemma resetInstance_always_fulfils_witness :
  ∃ r,
    settled
      (run [FnSettles 0 lockedReset]
         (snd (resetInstance demoRoot "alice" (run [] (initQ aliceWorld)))))
      !! 0 = Some r ∧
    r = Fulfilled JUndefined.
Proof.
  exists (Fulfilled JUndefined). split; [vm_compute; reflexivity|].
  apply (proj1 (resetInstance_always_fulfils demoRoot aliceWorld []
                  [FnSettles 0 lockedReset] "alice")).
  vm_compute. reflexivity.
Defined.

(** Two submissions in a row: the second one begins only once the timer
    set at the end of the first is due; a firing that comes too early is
    of no effect. *)
Example queue_two_tasks_history :
  history
    (run [Enqueue rejectingTask; Enqueue fulfillingTask; Tick 120;
          FnSettles 0 (); Tick 499; TimerFires 0; Tick 1; TimerFires 0]
       (initQ ()))
  = [Began 1 620; Ended 0 120 (Rejected "boom"); Began 0 0].
Proof. reflexivity. Qed.

(** * Further properties *)

(** ** Registry discipline *)

Lemma RegistryWF_empty : RegistryWF emptyWorld.
Proof.
  split.
  - intros id h Hh. simpl in Hh. by rewrite lookup_empty in Hh.
  - intros h c Hc. simpl in Hc. by rewrite lookup_empty in Hc.
Qed.

(** A world that differs only in the file system and the effect log. *)
Lemma RegistryWF_same_maps w w' :
  instances w' = instances w → clients w' = clients w →
  nextHandle w' = nextHandle w → RegistryWF w → RegistryWF w'.
Proof.
  intros Hi Hc Hn [H1 H2]. split.
  - intros id h. rewrite Hi, Hc. apply H1.
  - intros h c. rewrite Hc, Hn. apply H2.
Qed.

Lemma RegistryWF_delete id w :
  RegistryWF w → RegistryWF (withInstances (delete id) w).
Proof.
  intros [H1 H2]. split; [|exact H2].
  intros id' h Hh. simpl in Hh.
  apply lookup_delete_Some in Hh as [_ Hh]. by apply H1.
Qed.

Lemma RegistryWF_alter f h w :
  (∀ c, boundId (f c) = boundId c) →
  RegistryWF w → RegistryWF (withClients (alter f h) w).
Proof.
  intros Hf [H1 H2]. split.
  - intros id h' Hh. simpl in *. destruct (H1 id h' Hh) as (c & Hc & Hb).
    destruct (decide (h = h')) as [->|Hne].
    + exists (f c). rewrite lookup_alter_eq, Hc. simpl. by rewrite Hf.
    + exists c. by rewrite lookup_alter_ne.
  - intros h' c Hc. simpl in *.
    destruct (decide (h = h')) as [->|Hne].
    + rewrite lookup_alter_eq in Hc.
      destruct (clients w !! h') as [c0|] eqn:Hc0; [|done].
      by apply (H2 h' c0).
    + rewrite lookup_alter_ne in Hc by done. by apply (H2 h' c).
Qed.

Lemma RegistryWF_clientAct client a w :
  RegistryWF w → RegistryWF (clientAct client w a).
Proof.
  intros Hwf. destruct a as [i|ev]; simpl.
  - by apply RegistryWF_alter.
  - unfold emit. destruct (clients w !! client) as [c|]; [|done].
    destruct ev.
    + by apply (RegistryWF_same_maps w).
    + apply (RegistryWF_same_maps
               (withClients (alter (setInitializing false) client) w));
        [done..|]. by apply RegistryWF_alter.
    + by apply (RegistryWF_same_maps w).
    + apply (RegistryWF_same_maps (withInstances (delete (boundId c)) w));
        [done..|]. by apply RegistryWF_delete.
    + done.
    + apply (RegistryWF_same_maps (withInstances (delete (boundId c)) w));
        [done..|]. by apply RegistryWF_delete.
Qed.

Lemma RegistryWF_clientActs client acts :
  ∀ w, RegistryWF w → RegistryWF (clientActs client acts w).
Proof.
  unfold clientActs. induction acts as [|a acts IH]; intros w Hwf; [done|].
  simpl. by apply IH, RegistryWF_clientAct.
Qed.

Lemma RegistryWF_insert id h c w :
  clients w !! h = Some c → boundId c = id →
  RegistryWF w → RegistryWF (withInstances (insert id h) w).
Proof.
  intros Hc Hb [H1 H2]. split; [|exact H2].
  intros id' h' Hh. simpl in Hh.
  apply lookup_insert_Some in Hh as [[<- <-]|[_ Hh]].
  - by exists c.
  - by apply H1.
Qed.

(** The id a client's listeners are bound to never changes. *)
Lemma clientAct_boundId client a w h :
  boundId <$> clients (clientAct client w a) !! h
  = boundId <$> clients w !! h.
Proof.
  destruct a as [i|ev]; simpl.
  - destruct (decide (client = h)) as [->|Hne].
    + rewrite lookup_alter_eq. by destruct (clients w !! h).
    + by rewrite lookup_alter_ne.
  - unfold emit. destruct (clients w !! client) as [c|]; [|done].
    destruct ev; try done. unfold onReady. simpl.
    destruct (decide (client = h)) as [->|Hne].
    + rewrite lookup_alter_eq. by destruct (clients w !! h).
    + by rewrite lookup_alter_ne.
Qed.

Lemma clientActs_boundId client acts h :
  ∀ w, boundId <$> clients (clientActs client acts w) !! h
       = boundId <$> clients w !! h.
Proof.
  unfold clientActs. induction acts as [|a acts IH]; intros w; [done|].
  simpl. by rewrite IH, clientAct_boundId.
Qed.

Lemma RegistryWF_createInstance APP_ROOT id ib w :
  RegistryWF w → RegistryWF (snd (createInstance APP_ROOT id ib w)).
Proof.
  intros Hwf. unfold createInstance.
  destruct (instances w !! id) as [h|] eqn:Hget; [done|]. simpl.
  set (c0 := {| boundId := id; authDataPath := SESSIONS_PATH APP_ROOT;
                info := None; isInitializing := true |}).
  set (w1 := logEffect (EInitialize (nextHandle w)) _).
  assert (RegistryWF w1) as Hwf1.
  { destruct Hwf as [H1 H2]. split.
    - intros id' h Hh. simpl in *. destruct (H1 id' h Hh) as (c & Hc & Hb).
      exists c. split; [|done]. rewrite lookup_insert_ne; [done|].
      apply H2 in Hc. lia.
    - intros h c Hc. simpl in *.
      apply lookup_insert_Some in Hc as [[<- _]|[_ Hc]]; [lia|].
      apply H2 in Hc. lia. }
  assert (clients w1 !! nextHandle w = Some c0) as Hc1
    by (subst w1; simpl; apply lookup_insert_eq).
  set (w2 := clientActs (nextHandle w) (initActions ib) w1).
  assert (RegistryWF w2) as Hwf2 by by apply RegistryWF_clientActs.
  assert (∃ c, clients w2 !! nextHandle w = Some c ∧ boundId c = id)
    as (c & Hc2 & Hb2).
  { pose proof (clientActs_boundId (nextHandle w) (initActions ib)
                  (nextHandle w) w1) as Hb.
    fold w2 in Hb. rewrite Hc1 in Hb. simpl in Hb.
    destruct (clients w2 !! nextHandle w) as [c|]; [|done].
    exists c. split; [done|]. by injection Hb. }
  destruct (initThrows ib) as [err|].
  - apply (RegistryWF_insert id (nextHandle w) c); [done|done|].
    apply (RegistryWF_same_maps (withInstances (delete id) w2)); [done..|].
    by apply RegistryWF_delete.
  - by apply (RegistryWF_insert id (nextHandle w) c).
Qed.

Lemma RegistryWF_removeFolder p maxRetries delayMs rmThrows w :
  RegistryWF w →
  RegistryWF (snd (removeFolderWithRetries p maxRetries delayMs rmThrows w)).
Proof.
  intros Hwf.
  destruct (removeFolderWithRetries_frame p maxRetries delayMs rmThrows w)
    as (Hi & _ & Hc & Hn & _).
  by apply (RegistryWF_same_maps w).
Qed.

Lemma RegistryWF_resetBody APP_ROOT id env w :
  RegistryWF w → RegistryWF (snd (resetBody APP_ROOT id env w)).
Proof.
  intros Hwf. unfold resetBody.
  set (w2 := withQrCodes (delete id) _).
  assert (RegistryWF w2) as Hwf2.
  { subst w2. destruct (instances w !! id) as [client|].
    - apply (RegistryWF_same_maps
               (withInstances (delete id)
                  (clientActs client (destroyActions env)
                     (logEffect (EDestroy client) w))));
        [by destruct (destroyThrows env)..|].
      apply RegistryWF_delete, RegistryWF_clientActs.
      by apply (RegistryWF_same_maps w).
    - by apply (RegistryWF_same_maps w). }
  pose proof (RegistryWF_removeFolder
                (path_join (CHROME_PROFILES_PATH APP_ROOT) id)
                defaultMaxRetries defaultDelayMs (rmThrows env) w2 Hwf2)
    as Hwf3.
  destruct (removeFolderWithRetries _ _ _ _ w2) as [b w3]. simpl in *.
  apply (RegistryWF_same_maps w3); [by destruct (pkillThrows env)..|done].
Qed.

Lemma RegistryWF_deleteInstance id w :
  RegistryWF w → RegistryWF (snd (deleteInstance id w)).
Proof.
  intros Hwf. unfold deleteInstance.
  destruct (instances w !! id) as [client|]; [|done]. simpl.
  apply (RegistryWF_same_maps (withInstances (delete id) w)); [done..|].
  by apply RegistryWF_delete.
Qed.

Lemma RegistryWF_logoutInstance id logoutThrows w :
  RegistryWF w → RegistryWF (snd (logoutInstance id logoutThrows w)).
Proof.
  intros Hwf. unfold logoutInstance.
  destruct (instances w !! id) as [client|].
  - destruct logoutThrows as [err|]; simpl.
    + by apply (RegistryWF_same_maps w).
    + apply (RegistryWF_same_maps (withInstances (delete id) w)); [done..|].
      by apply RegistryWF_delete.
  - simpl.
    apply (RegistryWF_same_maps (withInstances (delete id) w)); [done..|].
    by apply RegistryWF_delete.
Qed.

(** A call on an id the library refuses and that is not registered
    rejects and changes nothing; every other call is [createInstance]. *)
Lemma createInstanceCall_cases APP_ROOT id ib w :
  createInstanceCall APP_ROOT id ib w = createInstance APP_ROOT id ib w ∨
  (instances w !! id = None ∧ localAuthAccepts id = false ∧
   createInstanceCall APP_ROOT id ib w = (Rejected invalidClientId, w)).
Proof.
  unfold createInstanceCall, createInstance.
  destruct (instances w !! id) as [h|] eqn:Hget; [by left|].
  destruct (localAuthAccepts id); [by left | by right].
Qed.

Lemma createInstanceCall_accepted APP_ROOT id ib w :
  localAuthAccepts id = true →
  createInstanceCall APP_ROOT id ib w = createInstance APP_ROOT id ib w.
Proof.
  intros Hok. destruct (createInstanceCall_cases APP_ROOT id ib w)
    as [H|(_ & Hno & _)]; [done | congruence].
Qed.

Lemma RegistryWF_createInstanceCall APP_ROOT id ib w :
  RegistryWF w → RegistryWF (snd (createInstanceCall APP_ROOT id ib w)).
Proof.
  intros Hwf. destruct (createInstanceCall_cases APP_ROOT id ib w)
    as [-> | (_ & _ & ->)]; [by apply RegistryWF_createInstance | done].
Qed.

(** The reset, then the creation on the state the reset left. *)
Lemma restartInstance_unfold APP_ROOT id env ib w :
  restartInstance APP_ROOT id env ib w
  = (if localAuthAccepts id then Fulfilled JUndefined
     else Rejected invalidClientId,
     snd (createInstanceCall APP_ROOT id ib
            (snd (resetBody APP_ROOT id env w)))).
Proof.
  unfold restartInstance.
  pose proof (resetBody_outcome APP_ROOT id env w) as Hout.
  destruct (resetBody_maps APP_ROOT id env w) as [Hgone _].
  destruct (resetBody APP_ROOT id env w) as [r w1]. simpl in *. subst r.
  unfold createInstanceCall. rewrite Hgone.
  destruct (localAuthAccepts id); [|done].
  unfold createInstance. rewrite Hgone. by simpl.
Qed.

Lemma RegistryWF_applyOp APP_ROOT op w :
  RegistryWF w → RegistryWF (applyOp APP_ROOT w op).
Proof.
  intros Hwf. destruct op; simpl.
  - by apply RegistryWF_createInstanceCall.
  - by apply RegistryWF_resetBody.
  - rewrite restartInstance_unfold. simpl.
    by apply RegistryWF_createInstanceCall, RegistryWF_resetBody.
  - by apply RegistryWF_deleteInstance.
  - by apply RegistryWF_logoutInstance.
  - by apply RegistryWF_clientAct.
Qed.

Lemma RegistryWF_runOps APP_ROOT ops :
  ∀ w, RegistryWF w → RegistryWF (runOps APP_ROOT ops w).
Proof.
  unfold runOps. induction ops as [|op ops IH]; intros w Hwf; [done|].
  simpl. by apply IH, RegistryWF_applyOp.
Qed.

Lemma RegistryWF_ensureDir dir mkdirThrows w w' :
  ensureDir dir mkdirThrows w = Some w' → RegistryWF w → RegistryWF w'.
Proof.
  unfold ensureDir. intros Hrun Hwf.
  destruct (existsSync dir w); [by injection Hrun as <-|].
  destruct mkdirThrows; [done|]. injection Hrun as <-.
  by apply (RegistryWF_same_maps w).
Qed.

(** When [mkdirSync] does not throw, the module loads. *)
Lemma ensureSessionDirs_loads APP_ROOT files :
  ensureSessionDirs APP_ROOT (λ _, false) (withFs (λ _, files) emptyWorld)
  = Some (loadedWorld APP_ROOT files).
Proof.
  unfold loadedWorld, ensureSessionDirs, ensureDir. simpl.
  destruct (existsSync (SESSIONS_PATH APP_ROOT) _); simpl;
    by destruct (existsSync (CHROME_PROFILES_PATH APP_ROOT) _).
Qed.

Lemma RegistryWF_loadedWorld APP_ROOT files :
  RegistryWF (loadedWorld APP_ROOT files).
Proof.
  pose proof (ensureSessionDirs_loads APP_ROOT files) as Hload.
  unfold ensureSessionDirs in Hload.
  apply bind_Some in Hload as (w1 & H1 & H2).
  eapply RegistryWF_ensureDir; [exact H2|].
  eapply RegistryWF_ensureDir; [exact H1|].
  apply (RegistryWF_same_maps emptyWorld); [done..|]. apply RegistryWF_empty.
Qed.

(** X1.  In every state the manager can reach after it was loaded, by any
    sequence of creations, resets, restarts, deletions, logouts and client
    actions, a registered handle refers to a client whose listeners are
    bound to the id it is registered under, no handle is registered under
    two ids, and every client was allocated before the next handle to be
    given out. *)
Theorem registry_discipline
    (APP_ROOT : Path) (files : gset Path) (ops : list LifecycleOp) :
  let w := runOps APP_ROOT ops (loadedWorld APP_ROOT files) in
  (∀ id h, instances w !! id = Some h →
           ∃ c, clients w !! h = Some c ∧ boundId c = id) ∧
  (∀ id1 id2 h, instances w !! id1 = Some h → instances w !! id2 = Some h →
                id1 = id2) ∧
  (∀ h c, clients w !! h = Some c → h < nextHandle w).
Proof.
  intros w.
  assert (RegistryWF w) as [H1 H2]
    by apply RegistryWF_runOps, RegistryWF_loadedWorld.
  split; [exact H1|]. split; [|exact H2].
  intros id1 id2 h Hh1 Hh2.
  destruct (H1 id1 h Hh1) as (c1 & Hc1 & <-).
  destruct (H1 id2 h Hh2) as (c2 & Hc2 & <-). congruence.
Qed.

(** ** One instance does not disturb another *)

Lemma sameAt_refl id w : sameAt id w w.
Proof. by split. Qed.

Lemma sameAt_trans id w1 w2 w3 :
  sameAt id w1 w2 → sameAt id w2 w3 → sameAt id w1 w3.
Proof. intros [H1 H2] [H3 H4]. split; congruence. Qed.

Lemma sameAt_maps id w w' :
  instances w' = instances w → qrCodes w' = qrCodes w → sameAt id w w'.
Proof. intros Hi Hq. split; congruence. Qed.

Lemma sameAt_forget id id' w :
  id' ≠ id →
  sameAt id' w (withQrCodes (delete id) (withInstances (delete id) w)).
Proof. intros Hne. split; simpl; by rewrite lookup_delete_ne. Qed.

Lemma clientAct_other client id id' a w :
  (∀ c, clients w !! client = Some c → boundId c = id) →
  id' ≠ id → sameAt id' w (clientAct client w a).
Proof.
  intros Hb Hne. destruct a as [i|ev]; simpl; [by apply sameAt_maps|].
  unfold emit. destruct (clients w !! client) as [c|] eqn:Hc;
    [|apply sameAt_refl].
  rewrite (Hb c eq_refl). destruct ev; try by apply sameAt_maps.
  - split; simpl; [done|]. by rewrite lookup_insert_ne.
  - split; simpl; by rewrite lookup_delete_ne.
  - split; simpl; by rewrite lookup_delete_ne.
Qed.

Lemma clientActs_other client id id' acts :
  id' ≠ id →
  ∀ w, (∀ c, clients w !! client = Some c → boundId c = id) →
       sameAt id' w (clientActs client acts w).
Proof.
  intros Hne. unfold clientActs.
  induction acts as [|a acts IH]; intros w Hb; [apply sameAt_refl|].
  simpl. eapply sameAt_trans; [by apply (clientAct_other client id)|].
  apply IH. intros c Hc.
  pose proof (clientAct_boundId client a w client) as Hstable.
  rewrite Hc in Hstable. simpl in Hstable.
  destruct (clients w !! client) as [c0|] eqn:Hc0; [|done].
  injection Hstable as ->. by apply Hb.
Qed.

Lemma createInstance_other APP_ROOT id id' ib w :
  id' ≠ id → sameAt id' w (snd (createInstance APP_ROOT id ib w)).
Proof.
  intros Hne. unfold createInstance.
  destruct (instances w !! id) as [h|]; [apply sameAt_refl|]. simpl.
  set (w1 := logEffect (EInitialize (nextHandle w)) _).
  set (w2 := clientActs (nextHandle w) (initActions ib) w1).
  assert (sameAt id' w w2) as H2.
  { eapply sameAt_trans; [|apply (clientActs_other _ id); [done|]].
    - by apply sameAt_maps.
    - intros c Hc. subst w1. simpl in Hc.
      rewrite lookup_insert_eq in Hc. by injection Hc as <-. }
  eapply sameAt_trans; [exact H2|].
  destruct (initThrows ib).
  - split; simpl; [|by rewrite lookup_delete_ne].
    rewrite lookup_insert_ne by done. by rewrite lookup_delete_ne.
  - split; simpl; [|done]. by rewrite lookup_insert_ne.
Qed.

Lemma createInstanceCall_other APP_ROOT id id' ib w :
  id' ≠ id → sameAt id' w (snd (createInstanceCall APP_ROOT id ib w)).
Proof.
  intros Hne. destruct (createInstanceCall_cases APP_ROOT id ib w)
    as [-> | (_ & _ & ->)]; [by apply createInstance_other|].
  apply sameAt_refl.
Qed.

Lemma resetBody_other APP_ROOT id id' env w :
  RegistryWF w → id' ≠ id →
  sameAt id' w (snd (resetBody APP_ROOT id env w)).
Proof.
  intros [H1 _] Hne. unfold resetBody.
  set (w2 := withQrCodes (delete id) _).
  assert (sameAt id' w w2) as H2.
  { subst w2. destruct (instances w !! id) as [client|] eqn:Hget.
    - destruct (H1 id client Hget) as (c & Hc & Hb).
      assert (sameAt id' w (clientActs client (destroyActions env)
                              (logEffect (EDestroy client) w))) as Hacts.
      { eapply sameAt_trans; [|apply (clientActs_other _ id); [done|]].
        - by apply sameAt_maps.
        - intros c' Hc'. simpl in Hc'. congruence. }
      eapply sameAt_trans; [exact Hacts|].
      destruct (destroyThrows env); by apply sameAt_forget.
    - split; simpl; [done|]. by rewrite lookup_delete_ne. }
  destruct (removeFolderWithRetries_frame
              (path_join (CHROME_PROFILES_PATH APP_ROOT) id)
              defaultMaxRetries defaultDelayMs (rmThrows env) w2)
    as (Hi & Hq & _).
  destruct (removeFolderWithRetries _ _ _ _ w2) as [b w3]. simpl in *.
  eapply sameAt_trans; [exact H2|].
  apply sameAt_maps; by destruct (pkillThrows env).
Qed.

Lemma deleteInstance_other id id' w :
  id' ≠ id → sameAt id' w (snd (deleteInstance id w)).
Proof.
  intros Hne. unfold deleteInstance.
  destruct (instances w !! id); [|apply sameAt_refl]. simpl.
  split; simpl; by rewrite lookup_delete_ne.
Qed.

Lemma logoutInstance_other id id' logoutThrows w :
  id' ≠ id → sameAt id' w (snd (logoutInstance id logoutThrows w)).
Proof.
  intros Hne. unfold logoutInstance.
  destruct (instances w !! id); [destruct logoutThrows|]; simpl;
    try (by apply sameAt_maps);
    split; simpl; by rewrite lookup_delete_ne.
Qed.

(** X2.  In a reachable state, an operation on [id] (create, reset,
    restart, delete, logout) and any action of the client registered under
    [id] leave the Registry entry and the QR code of every other id as
    they were. *)
Theorem operations_leave_other_ids_alone
    (APP_ROOT : Path) (files : gset Path) (ops : list LifecycleOp)
    (id id' : string) :
  id' ≠ id →
  let w := runOps APP_ROOT ops (loadedWorld APP_ROOT files) in
  (∀ ib, sameAt id' w (snd (createInstance APP_ROOT id ib w))) ∧
  (∀ env, sameAt id' w (snd (resetBody APP_ROOT id env w))) ∧
  (∀ env ib, sameAt id' w (snd (restartInstance APP_ROOT id env ib w))) ∧
  sameAt id' w (snd (deleteInstance id w)) ∧
  (∀ err, sameAt id' w (snd (logoutInstance id err w))) ∧
  (∀ h a, instances w !! id = Some h → sameAt id' w (clientAct h w a)).
Proof.
  intros Hne w.
  assert (RegistryWF w) as Hwf
    by apply RegistryWF_runOps, RegistryWF_loadedWorld.
  split; [intros; by apply createInstance_other|].
  split; [intros; by apply resetBody_other|].
  split.
  { intros env ib. rewrite restartInstance_unfold. simpl.
    eapply sameAt_trans; [by apply (resetBody_other APP_ROOT id)|].
    by apply createInstanceCall_other. }
  split; [by apply deleteInstance_other|].
  split; [intros; by apply logoutInstance_other|].
  intros h a Hh. destruct Hwf as [H1 _].
  destruct (H1 id h Hh) as (c & Hc & Hb).
  apply (clientAct_other h id); [|done]. intros c' Hc'. congruence.
Qed.

(** ** Cost of a removal and of a reset *)

Lemma rmAttempts_app es1 es2 :
  rmAttempts (es1 ++ es2) = rmAttempts es1 + rmAttempts es2.
Proof. unfold rmAttempts. by rewrite List.filter_app, length_app. Qed.

Lemma totalDelay_app es1 es2 :
  totalDelay (es1 ++ es2) = totalDelay es1 + totalDelay es2.
Proof.
  unfold totalDelay. induction es1 as [|e es1 IH]; simpl; [done|].
  rewrite IH. lia.
Qed.

Lemma removeLoop_cost p maxRetries delayMs rmThrows :
  ∀ fuel attempts w b w',
    removeLoop fuel p maxRetries delayMs rmThrows attempts w = Some (b, w') →
    ∃ added,
      effects w' = effects w ++ added ∧
      rmAttempts added ≤ maxRetries - attempts ∧
      totalDelay added ≤ (maxRetries - attempts - 1) * delayMs ∧
      Forall (isRemovalStep p delayMs) added.
Proof.
  induction fuel as [|fuel IH]; intros attempts w b w' Hrun; [done|].
  simpl in Hrun.
  destruct (attempts <? maxRetries) eqn:Hlt.
  - apply Nat.ltb_lt in Hlt.
    destruct (existsSync p w).
    + destruct (rmThrows attempts).
      * destruct (maxRetries <=? S attempts) eqn:Hle.
        -- inversion Hrun; subst; clear Hrun.
           exists [ERmSync p false]. simpl.
           split; [done|]. split; [unfold rmAttempts; simpl; lia|].
           split; [apply Nat.le_0_l|].
           constructor; [|constructor]. left. by eexists.
        -- apply Nat.leb_gt in Hle. apply IH in Hrun.
           destruct Hrun as (added & Heff & Hrm & Hdelay & Hall).
           exists (ERmSync p false :: EDelay delayMs :: added).
           simpl in Heff. rewrite Heff, <- !app_assoc. simpl.
           split; [done|]. split.
           { change (ERmSync p false :: EDelay delayMs :: added)
               with ([ERmSync p false; EDelay delayMs] ++ added).
             rewrite rmAttempts_app. unfold rmAttempts at 1. simpl. lia. }
           split.
           { replace (maxRetries - attempts - 1)
               with (S (maxRetries - S attempts - 1)) by lia.
             remember ((maxRetries - S attempts - 1) * delayMs) as bound.
             unfold totalDelay in *. simpl. rewrite <- Heqbound. lia. }
           constructor; [left; by eexists|]. constructor; [by right|done].
      * inversion Hrun; subst; clear Hrun.
        exists [ERmSync p true]. simpl.
        split; [done|]. split; [unfold rmAttempts; simpl; lia|].
        split; [apply Nat.le_0_l|].
           constructor; [|constructor]. left. by eexists.
    + inversion Hrun; subst; clear Hrun. exists []. rewrite app_nil_r.
      split; [done|]. split; [unfold rmAttempts; simpl; lia|].
      split; [apply Nat.le_0_l|]. constructor.
  - inversion Hrun; subst; clear Hrun. exists []. rewrite app_nil_r.
    split; [done|]. split; [unfold rmAttempts; simpl; lia|].
    split; [apply Nat.le_0_l|]. constructor.
Qed.

Lemma removeFolderWithRetries_cost
    (p : Path) (maxRetries delayMs : nat) (rmThrows : nat → bool)
    (w : World) :
  ∃ added,
    effects (snd (removeFolderWithRetries p maxRetries delayMs rmThrows w))
    = effects w ++ added ∧
    rmAttempts added ≤ maxRetries ∧
    totalDelay added ≤ (maxRetries - 1) * delayMs ∧
    Forall (isRemovalStep p delayMs) added.
Proof.
  unfold removeFolderWithRetries.
  destruct (removeLoop_total p maxRetries delayMs rmThrows
              (S maxRetries) 0 w) as [[b w'] Hrun]; [lia|].
  rewrite Hrun. simpl.
  destruct (removeLoop_cost _ _ _ _ _ _ _ _ _ Hrun)
    as (added & Heff & Hrm & Hdelay & Hall).
  exists added. rewrite Nat.sub_0_r in Hrm, Hdelay. done.
Qed.

(** X3.  Whatever the file system answers, [removeFolderWithRetries] adds
    nothing to the effects but removal attempts on [folderPath] and waits
    of [delayMs]; it makes at most [maxRetries] attempts and sleeps at
    most [(maxRetries - 1) * delayMs] milliseconds in total. *)
Theorem removeFolderWithRetries_bounded_cost
    (p : Path) (maxRetries delayMs : nat) (rmThrows : nat → bool)
    (w : World) :
  ∃ added,
    effects (snd (removeFolderWithRetries p maxRetries delayMs rmThrows w))
    = effects w ++ added ∧
    rmAttempts added ≤ maxRetries ∧
    totalDelay added ≤ (maxRetries - 1) * delayMs ∧
    Forall (isRemovalStep p delayMs) added.
Proof. apply removeFolderWithRetries_cost. Qed.

(** X4.  What the result of [removeFolderWithRetries] tells its caller:
    [true] only if the folder is absent afterwards, [false] only if every
    one of the [maxRetries] attempts threw.  In either case nothing
    outside the folder is removed and nothing is created. *)
Theorem removeFolderWithRetries_result
    (p : Path) (maxRetries delayMs : nat) (rmThrows : nat → bool)
    (w : World) :
  let r := removeFolderWithRetries p maxRetries delayMs rmThrows w in
  (fst r = true → p ∉ fs (snd r)) ∧
  (fst r = false → ∀ j, j < maxRetries → rmThrows j = true) ∧
  (∀ q, q ∈ fs (snd r) → q ∈ fs w) ∧
  (∀ q, q ∈ fs w → ¬ p `prefix_of` q → q ∈ fs (snd r)).
Proof.
  intros r.
  destruct (removeFolderWithRetries_frame p maxRetries delayMs rmThrows w)
    as (_ & _ & _ & _ & Hb).
  fold r in Hb. destruct (fst r).
  - destruct Hb as [Hgone Hcases]. split; [done|]. split; [done|].
    destruct Hcases as [-> | ->].
    + split; done.
    + split; intros q; rewrite elem_of_rmTree; tauto.
  - destruct Hb as [Hsame Hall]. split; [done|]. split; [done|].
    rewrite Hsame. split; done.
Qed.

Lemma clientAct_effects client a w :
  ∃ sts, effects (clientAct client w a) = effects w ++ sts ∧
         Forall (λ e, isStatus e = true) sts.
Proof.
  destruct a as [i|ev]; simpl.
  - exists []. by rewrite app_nil_r.
  - unfold emit. destruct (clients w !! client) as [c|];
      [|exists []; by rewrite app_nil_r].
    destruct ev; simpl;
      try (eexists [_]; split; [reflexivity|by repeat constructor]).
    all: exists []; by rewrite app_nil_r.
Qed.

Lemma clientActs_effects client acts :
  ∀ w, ∃ sts, effects (clientActs client acts w) = effects w ++ sts ∧
              Forall (λ e, isStatus e = true) sts.
Proof.
  unfold clientActs. induction acts as [|a acts IH]; intros w.
  - exists []. by rewrite app_nil_r.
  - simpl. destruct (clientAct_effects client a w) as (s1 & H1 & F1).
    destruct (IH (clientAct client w a)) as (s2 & H2 & F2).
    exists (s1 ++ s2). rewrite H2, H1, app_assoc. split; [done|].
    by apply Forall_app.
Qed.

Lemma totalDelay_statuses sts :
  Forall (λ e, isStatus e = true) sts → totalDelay sts = 0.
Proof.
  induction 1 as [|e sts He _ IH]; [done|].
  unfold totalDelay in *. simpl. rewrite IH. by destruct e.
Qed.

(** X5.  What the body of a reset does to the outside, in order: one
    [destroy()] on the registered handle (none if the id is not
    registered), with nothing but status pushes caused by the client's
    events; then at most five removal attempts, all on the profile
    directory of the id, with waits of one second; then one [pkill] for
    the id.  Altogether it sleeps at most four seconds. *)
Theorem resetBody_effects
    (APP_ROOT : Path) (id : string) (env : ResetEnv) (w : World) :
  ∃ pre rm,
    effects (snd (resetBody APP_ROOT id env w))
    = effects w ++ pre ++ rm ++ [EPkill id] ∧
    match instances w !! id with
    | Some h => ∃ sts, pre = EDestroy h :: sts ∧
                       Forall (λ e, isStatus e = true) sts
    | None => pre = []
    end ∧
    Forall (isRemovalStep (profileDir APP_ROOT id) defaultDelayMs) rm ∧
    rmAttempts rm ≤ 5 ∧
    totalDelay (pre ++ rm ++ [EPkill id]) ≤ 4000.
Proof.
  unfold resetBody, profileDir.
  set (p := path_join (CHROME_PROFILES_PATH APP_ROOT) id).
  set (w2 := withQrCodes (delete id) _).
  assert (∃ pre, effects w2 = effects w ++ pre ∧
                 match instances w !! id with
                 | Some h => ∃ sts, pre = EDestroy h :: sts ∧
                                    Forall (λ e, isStatus e = true) sts
                 | None => pre = []
                 end ∧ totalDelay pre = 0) as (pre & Hpre & Hshape & Hd0).
  { subst w2. destruct (instances w !! id) as [h|].
    - destruct (clientActs_effects h (destroyActions env)
                  (logEffect (EDestroy h) w)) as (sts & Heff & Hsts).
      exists (EDestroy h :: sts). split; [|split].
      + simpl. simpl in Heff.
        destruct (destroyThrows env); simpl; rewrite Heff;
          by rewrite <- app_assoc.
      + by exists sts.
      + change (EDestroy h :: sts) with ([EDestroy h] ++ sts).
        rewrite totalDelay_app, (totalDelay_statuses sts Hsts). done.
    - exists []. simpl. by rewrite app_nil_r. }
  clearbody w2.
  destruct (removeFolderWithRetries_cost p defaultMaxRetries
              defaultDelayMs (rmThrows env) w2)
    as (rm & Hrm & Hcount & Hdelay & Hsteps).
  destruct (removeFolderWithRetries p defaultMaxRetries defaultDelayMs
              (rmThrows env) w2) as [b w3].
  simpl in Hrm. exists pre, rm. split; [|split; [done|]].
  - simpl. assert (effects (if pkillThrows env
                            then logEffect (EPkill id) w3
                            else logEffect (EPkill id) w3)
                   = effects w3 ++ [EPkill id]) as ->
      by (by destruct (pkillThrows env)).
    rewrite Hrm, Hpre. by rewrite <- !app_assoc.
  - split; [done|]. split; [exact Hcount|].
    rewrite !totalDelay_app, Hd0. unfold totalDelay at 2. simpl.
    unfold defaultMaxRetries, defaultDelayMs in Hdelay. simpl in Hdelay. lia.
Qed.

(** ** Session store *)

Lemma elem_of_pathPrefixes p :
  ∀ q, q ∈ pathPrefixes p ↔ q ≠ [] ∧ q `prefix_of` p.
Proof.
  induction p as [|seg rest IH]; intros q; simpl.
  - split; [intros H; by apply elem_of_nil in H|].
    intros [Hne Hpre]. apply prefix_nil_inv in Hpre. done.
  - rewrite elem_of_cons, list_elem_of_fmap. split.
    + intros [->|(q' & -> & Hq')].
      * split; [done|]. by apply prefix_cons, prefix_nil.
      * apply IH in Hq' as [_ Hpre]. split; [done|]. by apply prefix_cons.
    + intros [Hne Hpre]. destruct q as [|s q']; [done|].
      apply prefix_cons_inv_1 in Hpre as Hs. subst s.
      apply prefix_cons_inv_2 in Hpre.
      destruct q' as [|s' q'']; [by left|].
      right. exists (s' :: q''). split; [done|]. apply IH. by split.
Qed.

Lemma elem_of_ensureDir dir mkdirThrows w w' q :
  ensureDir dir mkdirThrows w = Some w' →
  q ∈ fs w' ↔
  q ∈ fs w ∨ (existsSync dir w = false ∧ q ≠ [] ∧ q `prefix_of` dir).
Proof.
  unfold ensureDir. destruct (existsSync dir w) eqn:Hex.
  - intros [= <-]. split; [by left|]. intros [?|[? _]]; done.
  - destruct mkdirThrows; [done|]. intros [= <-].
    simpl. unfold mkdirRecursive.
    rewrite elem_of_union, elem_of_list_to_set, elem_of_pathPrefixes.
    split; intros [?|?]; try (by left); right; tauto.
Qed.

Lemma existsSync_true_iff p w : existsSync p w = true ↔ p ∈ fs w.
Proof. unfold existsSync. apply bool_decide_eq_true. Qed.

Lemma ensureDir_exists dir mkdirThrows w w' :
  dir ≠ [] → ensureDir dir mkdirThrows w = Some w' →
  existsSync dir w' = true.
Proof.
  intros Hne Hrun.
  apply existsSync_true_iff, (elem_of_ensureDir _ _ _ _ _ Hrun).
  destruct (existsSync dir w) eqn:Hex.
  - left. by apply existsSync_true_iff.
  - right. done.
Qed.

(** X6.  [ensureDir(dir)] does nothing at all when the directory is
    already there.  When it is not, the function calls [mkdirSync]; if
    that call throws, the error leaves [ensureDir], which catches
    nothing.  Whenever [ensureDir] returns, the directory is in place
    together with all its ancestors, nothing was removed and nothing else
    was created, and a second call finds the directory and does
    nothing, whatever [mkdirSync] would do then. *)
Theorem ensureDir_creates_missing_ancestors
    (dir : Path) (mkdirThrows : bool) (w : World) :
  dir ≠ [] →
  (existsSync dir w = true → ensureDir dir mkdirThrows w = Some w) ∧
  (existsSync dir w = false →
   ensureDir dir mkdirThrows w = None ↔ mkdirThrows = true) ∧
  (∀ w', ensureDir dir mkdirThrows w = Some w' →
         existsSync dir w' = true ∧
         (∀ q, q ∈ fs w → q ∈ fs w') ∧
         (existsSync dir w = false →
          ∀ q, q ≠ [] → q `prefix_of` dir → q ∈ fs w') ∧
         (∀ q, q ∈ fs w' → q ∈ fs w ∨ q `prefix_of` dir) ∧
         (∀ again, ensureDir dir again w' = Some w')).
Proof.
  intros Hne. split; [|split].
  - intros Hex. unfold ensureDir. by rewrite Hex.
  - intros Hex. unfold ensureDir. rewrite Hex.
    destruct mkdirThrows; [done|]. split; discriminate.
  - intros w' Hrun.
    assert (existsSync dir w' = true) as Hthere
      by by apply (ensureDir_exists dir mkdirThrows w).
    split; [exact Hthere|]. split.
    { intros q Hq. apply (elem_of_ensureDir _ _ _ _ _ Hrun). by left. }
    split.
    { intros Hex q Hq Hpre. apply (elem_of_ensureDir _ _ _ _ _ Hrun).
      by right. }
    split.
    { intros q Hq.
      apply (elem_of_ensureDir _ _ _ _ _ Hrun) in Hq as [?|(_ & _ & ?)];
        tauto. }
    intros again. unfold ensureDir. by rewrite Hthere.
Qed.

Lemma createInstance_fs APP_ROOT id ib w :
  fs (snd (createInstance APP_ROOT id ib w)) = fs w.
Proof.
  unfold createInstance. destruct (instances w !! id); [done|]. simpl.
  destruct (initThrows ib); simpl; by rewrite clientActs_fs.
Qed.

Lemma createInstanceCall_fs APP_ROOT id ib w :
  fs (snd (createInstanceCall APP_ROOT id ib w)) = fs w.
Proof.
  destruct (createInstanceCall_cases APP_ROOT id ib w)
    as [-> | (_ & _ & ->)]; [apply createInstance_fs | done].
Qed.

Lemma restartInstance_fs APP_ROOT id env ib w :
  fs (snd (restartInstance APP_ROOT id env ib w))
  = fs (snd (resetBody APP_ROOT id env w)).
Proof. rewrite restartInstance_unfold. simpl. apply createInstanceCall_fs. Qed.

(** The file system after one operation: either untouched, or the
    profile directory of one id removed. *)
Lemma applyOp_fs APP_ROOT op w :
  fs (applyOp APP_ROOT w op) = fs w ∨
  ∃ id, fs (applyOp APP_ROOT w op) = rmTree (profileDir APP_ROOT id) (fs w).
Proof.
  destruct op; simpl.
  - left. apply createInstanceCall_fs.
  - destruct (resetBody_fs APP_ROOT id env w) as [[H|H] _];
      [by left | right; by exists id].
  - rewrite restartInstance_fs.
    destruct (resetBody_fs APP_ROOT id env w) as [[H|H] _];
      [by left | right; by exists id].
  - left. unfold deleteInstance. by destruct (instances w !! id).
  - left. unfold logoutInstance.
    destruct (instances w !! id); [destruct logoutThrows|]; done.
  - left. apply (clientActs_fs client [a]).
Qed.





(** An id that is not a plain segment is no such neighbour: resetting the
    empty id removes the profile directories of all instances. *)
Example reset_empty_id_removes_all_profiles :
  existsSync (profileDir demoRoot "alice")
    (snd (resetBody demoRoot "" calmReset aliceWorld)) = false.
Proof. vm_compute. reflexivity. Qed.

(** ** Deletion and logout *)

(** X9.  [deleteInstance(id)] on an id that is not registered returns
    [false] and changes nothing.  On a registered id it returns [true],
    asks that client to destroy itself exactly once, and leaves the id in
    neither the Registry nor the QR map.  Deleting again right away is a
    miss. *)
Theorem deleteInstance_hit_or_miss (id : string) (w : World) :
  (instances w !! id = None → deleteInstance id w = (false, w)) ∧
  (∀ h, instances w !! id = Some h →
        fst (deleteInstance id w) = true ∧
        instances (snd (deleteInstance id w)) !! id = None ∧
        qrCodes (snd (deleteInstance id w)) !! id = None ∧
        effects (snd (deleteInstance id w)) = effects w ++ [EDestroy h]) ∧
  deleteInstance id (snd (deleteInstance id w))
  = (false, snd (deleteInstance id w)).
Proof.
  split; [|split].
  - intros Hnone. unfold deleteInstance. by rewrite Hnone.
  - intros h Hh. unfold deleteInstance. rewrite Hh. simpl.
    by rewrite !lookup_delete_eq.
  - unfold deleteInstance at 2 3.
    destruct (instances w !! id) as [h|] eqn:Hget; simpl.
    + unfold deleteInstance. simpl. by rewrite lookup_delete_eq.
    + unfold deleteInstance. by rewrite Hget.
Qed.


(** ** Client events *)

(** X11.  When the client registered under [id] emits [disconnected] or
    [auth_failure], the matching status is pushed and the id disappears
    from the Registry and the QR map: the reads answer [null], [{}] and
    no QR code, and the next [createInstance(id)] builds a new client
    instead of returning the old handle. *)
Theorem disconnect_deregisters
    (APP_ROOT : Path) (files : gset Path) (ops : list LifecycleOp)
    (id : string) (h : Handle) (ev : ClientEvent) (ib : InitBehaviour) :
  let w := runOps APP_ROOT ops (loadedWorld APP_ROOT files) in
  instances w !! id = Some h →
  (∃ reason, ev = EvDisconnected reason ∨ ev = EvAuthFailure reason) →
  let w' := emit h ev w in
  getInstance id w' = None ∧ getQRCode id w' = None ∧
  getStatus id w' = JNull ∧ getInfo id w' = emptyInfo ∧
  effects w'
  = effects w ++ [EStatus id (match ev with
                              | EvAuthFailure _ => "auth_failure"
                              | _ => "disconnected"
                              end) None None None] ∧
  fst (createInstance APP_ROOT id ib w') = Fulfilled (nextHandle w) ∧
  nextHandle w ≠ h.
Proof.
  intros w Hh Hev w'.
  assert (RegistryWF w) as [H1 H2]
    by apply RegistryWF_runOps, RegistryWF_loadedWorld.
  destruct (H1 id h Hh) as (c & Hc & Hb).
  assert (instances w' !! id = None ∧ qrCodes w' !! id = None ∧
          nextHandle w' = nextHandle w ∧
          effects w'
          = effects w ++ [EStatus id (match ev with
                                      | EvAuthFailure _ => "auth_failure"
                                      | _ => "disconnected"
                                      end) None None None])
    as (Hi & Hq & Hn & He).
  { subst w'. unfold emit. rewrite Hc, Hb.
    destruct Hev as (reason & [-> | ->]); simpl;
      by rewrite !lookup_delete_eq. }
  unfold getInstance, getQRCode, getStatus, getInfo. rewrite Hi, Hq.
  do 5 (split; [done|]). split.
  - unfold createInstance. rewrite Hi. simpl. by rewrite Hn.
  - apply H2 in Hc. lia.
Qed.

(** X12.  The [ready], [authenticated] and [debug] events change neither
    the Registry nor the QR map; in particular a QR challenge stored
    earlier is still returned by [getQRCode] after the client has become
    ready. *)
Theorem ready_keeps_qr_code (h : Handle) (ev : ClientEvent) (w : World) :
  (ev = EvReady ∨ ev = EvAuthenticated ∨ ∃ msg, ev = EvDebug msg) →
  instances (emit h ev w) = instances w ∧
  qrCodes (emit h ev w) = qrCodes w ∧
  ∀ id, getQRCode id (emit h ev w) = getQRCode id w.
Proof.
  intros Hev. unfold emit, getQRCode.
  destruct (clients w !! h) as [c|]; [|done].
  destruct Hev as [-> | [-> | [msg ->]]]; done.
Qed.

(** X13.  Of the QR challenges a client emits, only the latest is kept:
    after a run of [qr] events the QR code of the id is the last
    challenge, and every challenge was pushed as a ["qr"] status. *)
Theorem latest_qr_wins (h : Handle) (c : Client) (qrs : list string) :
  ∀ w, clients w !! h = Some c →
       let w' := clientActs h (map (λ qr, Emit (EvQr qr)) qrs) w in
       getQRCode (boundId c) w'
       = from_option Some (getQRCode (boundId c) w) (last qrs) ∧
       effects w'
       = effects w
         ++ map (λ _, EStatus (boundId c) "qr" None None None) qrs.
Proof.
  unfold clientActs.
  induction qrs as [|qr qrs IH]; intros w Hc; simpl.
  - by rewrite app_nil_r.
  - assert (clientAct h w (Emit (EvQr qr)) = onQr (boundId c) qr w) as Hstep
      by (simpl; unfold emit; by rewrite Hc).
    simpl in Hstep. rewrite Hstep.
    destruct (IH (onQr (boundId c) qr w) Hc) as [IHq IHe].
    rewrite IHq, IHe. split.
    + destruct qrs as [|qr' qrs'].
      * simpl. unfold getQRCode. simpl. apply lookup_insert_eq.
      * rewrite last_cons_cons.
        destruct (last (qr' :: qrs')) eqn:Hlast; [done|].
        by apply last_None in Hlast.
    + simpl. by rewrite <- app_assoc.
Qed.

(** ** More on the operation queue *)

Section QueueFurther.

Context {W E : Type}.
Implicit Types (s : QState W E).

Lemma SettledInv_loopHead s : SettledInv s → SettledInv (loopHead s).
Proof.
  intros Hinv. unfold loopHead. destruct (instanceQueue s) as [|e rest].
  - exact Hinv.
  - intros p r Hp. simpl in *. destruct (Hinv p r Hp) as (t & Hin).
    exists t. by apply elem_of_cons; right.
Qed.

Lemma SettledInv_step s ev : SettledInv s → SettledInv (step s ev).
Proof.
  intros Hinv. destruct ev as [f|k env|k|ms|f]; simpl; try done.
  - unfold processQueue. simpl. destruct (queueRunning s); [done|].
    by apply SettledInv_loopHead.
  - destruct (loops s !! k) as [[e|due]|]; try done.
    unfold afterFn. destruct (fn e env (world s)) as [r w1].
    intros p r' Hp. simpl in *.
    destruct (decide (p = promise e)) as [->|Hne].
    + rewrite lookup_insert_eq in Hp. injection Hp as <-.
      exists (now s). by apply elem_of_cons; left.
    + rewrite lookup_insert_ne in Hp by done.
      destruct (Hinv p r' Hp) as (t & Hin).
      exists t. by apply elem_of_cons; right.
  - destruct (loops s !! k) as [[e|due]|]; try done.
    destruct (due <=? now s); [|done].
    unfold afterDelay. by apply SettledInv_loopHead.
Qed.

Lemma SettledInv_run evs : ∀ s, SettledInv s → SettledInv (run evs s).
Proof.
  unfold run. induction evs as [|ev evs IH]; intros s Hinv; [done|].
  simpl. by apply IH, SettledInv_step.
Qed.

Lemma SettledInv_init (w : W) : SettledInv (@initQ W E w).
Proof. intros p r Hp. simpl in Hp. by rewrite lookup_empty in Hp. Qed.

Lemma settled_loopHead s : settled (loopHead s) = settled s.
Proof. unfold loopHead. by destruct (instanceQueue s). Qed.

Lemma settled_step s ev p r :
  QInv s → SettledInv s →
  settled s !! p = Some r → settled (step s ev) !! p = Some r.
Proof.
  intros Hq Hs Hp. destruct ev as [f|k env|k|ms|f]; simpl; try done.
  - unfold processQueue. simpl. destruct (queueRunning s); [done|].
    rewrite settled_loopHead. exact Hp.
  - destruct (loops s !! k) as [[e|due]|] eqn:Hk; try done.
    unfold afterFn. destruct (fn e env (world s)) as [r' w1]. simpl.
    rewrite lookup_insert_ne; [done|]. intros <-.
    destruct (Hs _ _ Hp) as (t & Hin).
    destruct Hq as (n & _ & _ & _ & Hl).
    destruct (loops s) as [|l [|? ?]];
      [by rewrite lookup_nil in Hk | | by destruct l].
    destruct k as [|k]; [|simpl in Hk; by rewrite lookup_nil in Hk].
    simpl in Hk. injection Hk as ->.
    destruct Hl as (_ & _ & _ & Honly).
    apply Honly in Hin as [Hlt _]. lia.
  - destruct (loops s !! k) as [[e|due]|]; try done.
    destruct (due <=? now s); [|done].
    unfold afterDelay. rewrite settled_loopHead. exact Hp.
Qed.

(** X14.  A promise of the queue is settled once: as soon as it holds an
    outcome, no later event changes it. *)
Theorem queue_promise_settles_once
    (w0 : W) (before after : list (Event W E))
    (p : nat) (r : Outcome JsVal) :
  settled (run before (initQ w0)) !! p = Some r →
  settled (run (before ++ after) (initQ w0)) !! p = Some r.
Proof.
  rewrite run_app.
  assert (∀ s, QInv s → SettledInv s → settled s !! p = Some r →
               settled (run after s) !! p = Some r) as Hgen.
  { unfold run. induction after as [|ev evs IH]; intros s Hq Hs Hp; [done|].
    simpl. apply IH.
    - by apply QInv_step.
    - by apply SettledInv_step.
    - by apply settled_step. }
  apply Hgen.
  - apply QInv_run, QInv_init.
  - apply SettledInv_run, SettledInv_init.
Qed.

(** X15.  Nothing is ever stranded in the queue.  Whenever [queueRunning]
    is [false], no activation of the drain loop is alive, the queue is
    empty and every promise handed out so far is settled; whenever it is
    [true], exactly one activation is alive. *)
Theorem queue_idle_means_drained (w0 : W) (evs : list (Event W E)) :
  let s := run evs (initQ w0) in
  (queueRunning s = false →
   loops s = [] ∧ instanceQueue s = [] ∧
   ∀ p, p < nextPromise s → is_Some (settled s !! p)) ∧
  (queueRunning s = true → length (loops s) = 1).
Proof.
  intros s. assert (QInv s) as Hinv by apply QInv_run, QInv_init.
  destruct (QInv_loops s Hinv) as [[Hl Hr]|(l & Hl & Hr)].
  - split; [|congruence]. intros _. split; [done|]. split.
    + destruct Hinv as (k & _ & _ & _ & Hcase). rewrite Hl in Hcase.
      by destruct Hcase as (_ & ? & _).
    + intros p Hp. by apply QInv_idle_settled.
  - split; [congruence|]. intros _. by rewrite Hl.
Qed.

Lemma beganIds_loopHead k s :
  k + length (instanceQueue s) = nextPromise s →
  map promise (instanceQueue s) = seq k (length (instanceQueue s)) →
  beganIds (history s) = rev (seq 0 k) →
  beganIds (history (loopHead s))
  = rev (seq 0 (nextPromise (loopHead s)
                - length (instanceQueue (loopHead s)))).
Proof.
  intros Hlen Hmap Hb. unfold loopHead.
  destruct (instanceQueue s) as [|e rest]; simpl in *.
  - rewrite Hb. f_equal. f_equal. lia.
  - injection Hmap as Hpe _. rewrite Hb, Hpe.
    replace (nextPromise s - length rest) with (S k) by lia.
    by rewrite seq_S, rev_app_distr.
Qed.

Lemma beganIds_step s ev :
  QInv s →
  beganIds (history s)
  = rev (seq 0 (nextPromise s - length (instanceQueue s))) →
  beganIds (history (step s ev))
  = rev (seq 0 (nextPromise (step s ev)
                - length (instanceQueue (step s ev)))).
Proof.
  intros Hinv Hb. pose proof Hinv as (k & Hlen & Hmap & _ & Hl).
  assert (nextPromise s - length (instanceQueue s) = k) as Hk by lia.
  rewrite Hk in Hb.
  destruct ev as [f|i env|i|ms|f]; simpl.
  - unfold processQueue. simpl. destruct (queueRunning s) eqn:Hrun; simpl.
    + rewrite Hb, length_app. simpl. f_equal. f_equal. lia.
    + destruct (QInv_loops s Hinv) as [[Hloops _]|(l & _ & ?)];
        [|congruence].
      rewrite Hloops in Hl. destruct Hl as (_ & Hq & _).
      rewrite Hq in Hlen. simpl in Hlen.
      apply (beganIds_loopHead k); simpl; rewrite ?Hq; simpl;
        [lia | f_equal; lia | done].
  - destruct (loops s !! i) as [[e|due]|]; try (by rewrite Hk).
    unfold afterFn. destruct (fn e env (world s)) as [r w1]. simpl.
    by rewrite Hk.
  - destruct (loops s !! i) as [[e|due]|]; try (by rewrite Hk).
    destruct (due <=? now s); [|by rewrite Hk].
    unfold afterDelay. by apply (beganIds_loopHead k).
  - by rewrite Hk.
  - by rewrite Hk.
Qed.

(** X16.  Operations begin one by one in exactly the order in which they
    were submitted, none skipped and none twice: the operations begun so
    far are the first [k] submissions, in order, and the queue holds the
    remaining ones, in order. *)
Theorem queue_begins_in_submission_order
    (w0 : W) (evs : list (Event W E)) :
  let s := run evs (initQ w0) in
  let k := nextPromise s - length (instanceQueue s) in
  rev (beganIds (history s)) = seq 0 k ∧
  map promise (instanceQueue s) = seq k (length (instanceQueue s)) ∧
  k + length (instanceQueue s) = nextPromise s.
Proof.
  intros s k.
  assert (QInv s ∧
          beganIds (history s)
          = rev (seq 0 (nextPromise s - length (instanceQueue s))))
    as [Hinv Hb].
  { subst k s. unfold run.
    assert (∀ s0 : QState W E,
              QInv s0 →
              beganIds (history s0)
              = rev (seq 0 (nextPromise s0 - length (instanceQueue s0))) →
              QInv (foldl step s0 evs) ∧
              beganIds (history (foldl step s0 evs))
              = rev (seq 0 (nextPromise (foldl step s0 evs)
                            - length (instanceQueue (foldl step s0 evs)))))
      as Hgen.
    { induction evs as [|ev evs IH]; intros s0 Hq Hb0; [done|].
      simpl. apply IH; [by apply QInv_step | by apply beganIds_step]. }
    apply Hgen; [apply QInv_init | done]. }
  destruct Hinv as (n & Hlen & Hmap & _).
  assert (k = n) as Hk by (subst k; lia).
  fold k in Hb. rewrite Hb, rev_involutive, Hk. done.
Qed.

(** A settled promise was handed out before. *)
Lemma settled_lt_nextPromise s p r :
  QInv s → SettledInv s → settled s !! p = Some r → p < nextPromise s.
Proof.
  intros (k & Hlen & _ & _ & Hl) Hs Hp.
  destruct (Hs p r Hp) as (t & Hin).
  destruct (loops s) as [|[e|due] [|? ?]]; try done.
  - destruct Hl as (_ & _ & _ & Honly). apply Honly in Hin as [? _]. lia.
  - destruct Hl as (_ & Hk & _ & Honly). apply Honly in Hin as [? _]. lia.
  - destruct Hl as (_ & _ & _ & Honly). apply Honly in Hin as [? _]. lia.
Qed.

Lemma settled_enqueue (f : @Task W E) s :
  settled (snd (enqueue f s)) = settled s.
Proof.
  unfold enqueue, processQueue. simpl. destruct (queueRunning s); [done|].
  by rewrite settled_loopHead.
Qed.

(** The only event that settles a promise is the settling of the
    function awaited for it, and the outcome is what that function made
    of the state it was run on. *)
Lemma settles_at_step s ev p r :
  settled s !! p = None → settled (step s ev) !! p = Some r →
  ∃ k env e,
    ev = FnSettles k env ∧ loops s !! k = Some (AwaitFn e) ∧
    promise e = p ∧ r = fst (fn e env (world s)) ∧
    world (step s ev) = snd (fn e env (world s)).
Proof.
  intros Hnone Hsome. destruct ev as [f|k env|k|ms|f]; unfold step in *.
  - rewrite settled_enqueue in Hsome. congruence.
  - destruct (loops s !! k) as [[e|due]|] eqn:Hk; try congruence.
    exists k, env, e.
    unfold afterFn in *. destruct (fn e env (world s)) as [r' w1].
    simpl in *. destruct (decide (p = promise e)) as [->|Hne].
    + rewrite lookup_insert_eq in Hsome. injection Hsome as ->. done.
    + rewrite lookup_insert_ne in Hsome by done. congruence.
  - destruct (loops s !! k) as [[e|due]|]; try congruence.
    destruct (due <=? now s); [|congruence].
    unfold afterDelay in Hsome. rewrite settled_loopHead in Hsome.
    simpl in Hsome. congruence.
  - simpl in Hsome. congruence.
  - simpl in Hsome. congruence.
Qed.

(** The moment a settled promise was settled. *)
Lemma settled_since s p r :
  QInv s → SettledInv s → settled s !! p = None →
  ∀ evs, settled (run evs s) !! p = Some r →
         ∃ pre ev post,
           evs = pre ++ ev :: post ∧
           settled (run pre s) !! p = None ∧
           settled (step (run pre s) ev) !! p = Some r.
Proof.
  intros Hq Hs Hnone evs. induction evs as [|ev evs IH] using rev_ind.
  - intros Hsome. unfold run in Hsome. simpl in Hsome. congruence.
  - rewrite run_app. intros Hsome.
    change (run [ev] (run evs s)) with (step (run evs s) ev) in Hsome.
    destruct (settled (run evs s) !! p) as [r'|] eqn:Hmid.
    + assert (r' = r) as ->.
      { pose proof (settled_step (run evs s) ev p r'
                      (QInv_run evs s Hq) (SettledInv_run evs s Hs) Hmid).
        congruence. }
      destruct (IH eq_refl) as (pre & ev' & post & -> & Hpre & Hstep).
      exists pre, ev', (post ++ [ev]).
      split; [by rewrite <- app_assoc|done].
    + exists evs, ev, []. done.
Qed.

Lemma enqueue_outcome_at (w0 : W) (before after : list (Event W E))
    (f : @Task W E) (r : Outcome JsVal) :
  let s0 := run before (initQ w0) in
  let p := fst (enqueue f s0) in
  let s1 := snd (enqueue f s0) in
  settled s1 !! p = None ∧
  (settled (run after s1) !! p = Some r →
   ∃ pre k env post,
     after = pre ++ FnSettles k env :: post ∧
     settled (run pre s1) !! p = None ∧
     loops (run pre s1) !! k = Some (AwaitFn {| fn := f; promise := p |}) ∧
     r = fst (f env (world (run pre s1))) ∧
     world (run (pre ++ [FnSettles k env]) s1)
     = snd (f env (world (run pre s1)))).
Proof.
  intros s0 p s1.
  assert (QInv s0) as Hq0 by apply QInv_run, QInv_init.
  assert (SettledInv s0) as Hs0 by apply SettledInv_run, SettledInv_init.
  assert (QInv s1) as Hq1 by by apply QInv_enqueue.
  assert (SettledInv s1) as Hs1
    by apply (SettledInv_step s0 (Enqueue f) Hs0).
  assert (p = nextPromise s0) as Hp by done.
  assert (settled s1 !! p = None) as Hfresh.
  { subst s1. rewrite settled_enqueue.
    destruct (settled s0 !! p) as [r0|] eqn:H0; [|done].
    apply settled_lt_nextPromise in H0; [lia|done..]. }
  split; [exact Hfresh|]. intros Hr.
  destruct (settled_since s1 p r Hq1 Hs1 Hfresh after Hr)
    as (pre & ev & post & -> & Hpre & Hstep).
  destruct (settles_at_step _ _ _ _ Hpre Hstep)
    as (k & env & e & -> & Hk & He & Hout & Hworld).
  destruct (TaskInv_run before [] (initQ w0) (TaskInv_init w0))
    as (subs & H0).
  simpl in H0. fold s0 in H0.
  pose proof (TaskInv_enqueue subs f s0 H0) as H1. fold s1 in H1.
  destruct (TaskInv_run pre _ _ H1) as (extra & H2).
  destruct H2 as (_ & _ & Hl & _).
  assert (fn e = f) as Hfn.
  { pose proof (Hl e (list_elem_of_lookup_2 _ _ _ Hk)) as Hsub.
    rewrite He, Hp in Hsub. destruct H0 as (Hlen & _).
    rewrite <- Hlen, <- app_assoc in Hsub. simpl in Hsub.
    rewrite list_lookup_middle in Hsub by done. by injection Hsub. }
  exists pre, k, env, post. split; [done|]. split; [done|].
  destruct e as [g q]. simpl in *. subst g q.
  split; [done|]. split; [done|].
  rewrite run_app. exact Hworld.
Qed.

(** X17.  The promise that [enqueue(fn)] returns is unsettled when it is
    handed out, and it is settled by one event only: the settling of the
    call the drain loop made of [fn] itself.  Its outcome is what [fn]
    returned or threw in that call, on the state of that moment, and the
    state after the event is the one [fn] left; the other queued
    functions have no part in it.  A queue that is left to drain does
    settle the promise. *)
Theorem enqueue_reports_own_outcome
    (w0 : W) (before after : list (Event W E)) (f : @Task W E) (env0 : E) :
  let s0 := run before (initQ w0) in
  let p := fst (enqueue f s0) in
  let s1 := snd (enqueue f s0) in
  settled s1 !! p = None ∧
  (∀ r, settled (run after s1) !! p = Some r →
        ∃ pre k env post,
          after = pre ++ FnSettles k env :: post ∧
          settled (run pre s1) !! p = None ∧
          loops (run pre s1) !! k
          = Some (AwaitFn {| fn := f; promise := p |}) ∧
          r = fst (f env (world (run pre s1))) ∧
          world (run (pre ++ [FnSettles k env]) s1)
          = snd (f env (world (run pre s1)))) ∧
  (∃ rest, is_Some (settled (run (after ++ rest) s1) !! p)).
Proof.
  intros s0 p s1. split; [|split].
  - apply (enqueue_outcome_at w0 before after f (Fulfilled JUndefined)).
  - intros r. apply (enqueue_outcome_at w0 before after f r).
  - by apply (enqueue_settles w0 before after f env0).
Qed.

End QueueFurther.

(** ** Restart *)

Lemma clientActs_nextHandle client acts :
  ∀ w, nextHandle (clientActs client acts w) = nextHandle w.
Proof.
  unfold clientActs. induction acts as [|a acts IH]; intros w; [done|].
  simpl. rewrite IH. destruct a as [i|ev]; simpl; [done|].
  unfold emit. destruct (clients w !! client); [|done]. by destruct ev.
Qed.

Lemma resetBody_nextHandle APP_ROOT id env w :
  nextHandle (snd (resetBody APP_ROOT id env w)) = nextHandle w.
Proof.
  unfold resetBody. set (w2 := withQrCodes (delete id) _).
  assert (nextHandle w2 = nextHandle w) as H2.
  { subst w2. simpl. destruct (instances w !! id); [|done]. simpl.
    destruct (destroyThrows env); by rewrite clientActs_nextHandle. }
  destruct (removeFolderWithRetries_frame
              (path_join (CHROME_PROFILES_PATH APP_ROOT) id)
              defaultMaxRetries defaultDelayMs (rmThrows env) w2)
    as (_ & _ & _ & Hn & _).
  destruct (removeFolderWithRetries _ _ _ _ w2) as [b w3]. simpl in *.
  rewrite <- H2, <- Hn. by destruct (pkillThrows env).
Qed.

Lemma resetBodyTurns_outcome APP_ROOT instanceId env turns w :
  fst (resetBodyTurns APP_ROOT instanceId env turns w) = Fulfilled JUndefined.
Proof.
  unfold resetBodyTurns.
  by destruct (removeFolderWithRetriesTurns _ _ _ _ _ _) as [b w3].
Qed.

(** With nothing else running, the restart is [restartInstance]. *)
Lemma restartInstanceTurns_quiet APP_ROOT id env ib w :
  restartInstanceTurns APP_ROOT id env quietTurns (λ w, w) ib w
  = restartInstance APP_ROOT id env ib w.
Proof.
  unfold restartInstanceTurns, restartInstance.
  by rewrite resetBodyTurns_quiet.
Qed.

(** X18.  [restartInstance(id)], provided that nothing which runs while
    it is suspended after the reset's two deletes puts [id] back into the
    Registry or the QR map.  Let [w1] be the state in which the restart
    resumes after its reset.  If the library accepts [id] as a client id,
    the restart fulfils and ends with [id] registered under a client
    built by this very call, initialised exactly once, after everything
    that happened up to [w1], with nothing but status pushes after it;
    in a well-formed registry that handle was registered under no id.
    This holds whether or not the id was registered, the old client could
    be destroyed, the profile directory could be removed, or the new
    client came up.  If the library refuses [id], the restart rejects
    with the library's error once the reset is done, and [w1] is where
    it ends. *)
Theorem restartInstance_builds_new_client
    (APP_ROOT : Path) (id : string) (env : ResetEnv) (turns : ResetTurns)
    (meanwhile : World → World) (ib : InitBehaviour) (w : World) :
  (∀ n, keepsOut id (whileWaiting turns n)) →
  keepsOut id (afterRemoval turns) →
  keepsOut id meanwhile →
  let w1 := meanwhile (snd (resetBodyTurns APP_ROOT id env turns w)) in
  let r := restartInstanceTurns APP_ROOT id env turns meanwhile ib w in
  (localAuthAccepts id = true →
   fst r = Fulfilled JUndefined ∧
   instances (snd r) !! id = Some (nextHandle w1) ∧
   (RegistryWF w1 →
    ∀ id0 h, instances w1 !! id0 = Some h → h ≠ nextHandle w1) ∧
   ∃ post,
     effects (snd r) = effects w1 ++ EInitialize (nextHandle w1) :: post ∧
     Forall (λ e, isStatus e = true) post) ∧
  (localAuthAccepts id = false →
   r = (Rejected invalidClientId, w1) ∧
   instances w1 !! id = None ∧ qrCodes w1 !! id = None).
Proof.
  intros Hwait Hafter Hmean w1 r.
  assert (unregistered id w1) as [Hgone Hnoqr]
    by by apply Hmean, resetBodyTurns_maps.
  assert (r = match createInstanceCall APP_ROOT id ib w1 with
              | (Fulfilled _, w2) => (Fulfilled JUndefined, w2)
              | (Rejected err, w2) => (Rejected err, w2)
              end) as Hr.
  { subst r w1. unfold restartInstanceTurns.
    pose proof (resetBodyTurns_outcome APP_ROOT id env turns w) as Hout.
    destruct (resetBodyTurns APP_ROOT id env turns w) as [o w0].
    simpl in *. by subst o. }
  clearbody r w1. subst r. unfold createInstanceCall. rewrite Hgone.
  split.
  - intros Hok. rewrite Hok. unfold createInstance. rewrite Hgone. simpl.
    split; [done|]. split; [by rewrite lookup_insert_eq|]. split.
    { intros [H1 H2] id0 h Hh. destruct (H1 id0 h Hh) as (c & Hc & _).
      apply H2 in Hc. lia. }
    set (w2 := logEffect (EInitialize (nextHandle w1)) _).
    destruct (clientActs_effects (nextHandle w1) (initActions ib) w2)
      as (sts & Heff & Hsts).
    destruct (initThrows ib) as [err|]; simpl; rewrite Heff; simpl.
    + exists (sts ++ [EStatus id "error" None None None]).
      split; [by rewrite <- !app_assoc|].
      apply Forall_app. split; [done|]. by repeat constructor.
    + exists sts. split; [by rewrite <- !app_assoc|done].
  - intros Hno. rewrite Hno. done.
Qed.

(** ** Browser lookup *)

Lemma firstExisting_spec candidates w :
  match firstExisting candidates w with
  | Some p =>
    existsSync p w = true ∧
    ∃ i, candidates !! i = Some (Some p) ∧
         ∀ j q, j < i → candidates !! j = Some (Some q) →
                existsSync q w = false
  | None => ∀ q, Some q ∈ candidates → existsSync q w = false
  end.
Proof.
  induction candidates as [|c rest IH]; simpl.
  - intros q Hq. by apply elem_of_nil in Hq.
  - destruct c as [p|].
    + destruct (existsSync p w) eqn:Hex.
      * split; [done|]. exists 0. split; [done|]. intros j q Hj. lia.
      * destruct (firstExisting rest w) as [p'|].
        -- destruct IH as (Hp' & i & Hi & Hbefore). split; [done|].
           exists (S i). split; [done|]. intros [|j] q Hj Hq; simpl in Hq.
           ++ by injection Hq as <-.
           ++ apply (Hbefore j); [lia|done].
        -- intros q Hq. apply elem_of_cons in Hq as [Heq|Hq].
           ++ by injection Heq as ->.
           ++ by apply IH.
    + destruct (firstExisting rest w) as [p'|].
      * destruct IH as (Hp' & i & Hi & Hbefore). split; [done|].
        exists (S i). split; [done|]. intros [|j] q Hj Hq; simpl in Hq.
        -- done.
        -- apply (Hbefore j); [lia|done].
      * intros q Hq. apply elem_of_cons in Hq as [Heq|Hq]; [done|].
        by apply IH.
Qed.

(** X19.  [getChromePath()] returns the first of its candidates that
    exists on disk, in the order [CHROME_BIN], chromium-browser, chromium,
    google-chrome, google-chrome-stable, so that a [CHROME_BIN] that
    exists always wins; it returns [null] exactly when none of them
    exists. *)
Theorem getChromePath_first_existing (CHROME_BIN : option Path) (w : World) :
  match getChromePath CHROME_BIN w with
  | Some p =>
    existsSync p w = true ∧
    ∃ i, chromeCandidates CHROME_BIN !! i = Some (Some p) ∧
         ∀ j q, j < i → chromeCandidates CHROME_BIN !! j = Some (Some q) →
                existsSync q w = false
  | None =>
    ∀ q, Some q ∈ chromeCandidates CHROME_BIN → existsSync q w = false
  end ∧
  (∀ p, CHROME_BIN = Some p → existsSync p w = true →
        getChromePath CHROME_BIN w = Some p).
Proof.
  split; [apply firstExisting_spec|].
  intros p -> Hex. unfold getChromePath. simpl. by rewrite Hex.
Qed.

(** ** Routes *)

Lemma missingId_false id : id ≠ "" → missingId id = false.
Proof. intros Hne. unfold missingId. by apply String.eqb_neq. Qed.

Lemma createInstance_registers APP_ROOT id ib w :
  ∃ h, fst (createInstance APP_ROOT id ib w) = Fulfilled h ∧
       instances (snd (createInstance APP_ROOT id ib w)) !! id = Some h.
Proof.
  unfold createInstance. destruct (instances w !! id) as [h|] eqn:Hget.
  - by exists h.
  - exists (nextHandle w). simpl. by rewrite lookup_insert_eq.
Qed.

(** X20.  [POST /reset/:id] never reports success.  For every non-empty id
    the body of the reset is run, and whatever it did and whatever else
    ran in the meantime, the answer is 404 "Instance not found or failed
    to reset", because the promise of [resetInstance] carries no value.
    Without an id the answer is 400 and nothing is done. *)
Theorem resetRoute_always_404
    (APP_ROOT : Path) (id : string) (env : ResetEnv) (turns : ResetTurns)
    (w : World) :
  id ≠ "" →
  resetRoute APP_ROOT id env turns w
  = ({| code := 404;
        body := BError "Instance not found or failed to reset" None |},
     snd (resetBodyTurns APP_ROOT id env turns w)) ∧
  resetRoute APP_ROOT "" env turns w = (idRequired, w).
Proof.
  intros Hne. split; [|done].
  unfold resetRoute. rewrite (missingId_false id Hne).
  pose proof (resetBodyTurns_outcome APP_ROOT id env turns w) as Hout.
  destruct (resetBodyTurns APP_ROOT id env turns w) as [r w1]. simpl in *.
  subst r. simpl. done.
Qed.


(** X22.  [POST /instance/:id], for a non-empty id.  If the id is
    registered already, or the library accepts it as a client id, the
    answer is 200 "Instance <id> created" and the id is registered when
    [createInstance] returns, also when the client's [initialize()]
    failed.  If the id is not registered and the library refuses it, the
    answer is 500 "Failed to create instance" with the library's error as
    details, and nothing has changed. *)
Theorem createRoute_answers
    (APP_ROOT : Path) (id : string) (ib : InitBehaviour) (w : World) :
  id ≠ "" →
  (localAuthAccepts id = true ∨ is_Some (instances w !! id) →
   fst (createRoute APP_ROOT id ib w)
   = {| code := 200;
        body := BSuccess (Some ("Instance " ++ id ++ " created")%string) |} ∧
   is_Some (instances (snd (createRoute APP_ROOT id ib w)) !! id)) ∧
  (localAuthAccepts id = false → instances w !! id = None →
   createRoute APP_ROOT id ib w
   = ({| code := 500;
         body := BError "Failed to create instance"
                   (Some invalidClientId) |}, w)).
Proof.
  intros Hne. unfold createRoute. rewrite (missingId_false id Hne). split.
  - intros Hok.
    assert (createInstanceCall APP_ROOT id ib w
            = createInstance APP_ROOT id ib w) as ->.
    { destruct (createInstanceCall_cases APP_ROOT id ib w)
        as [H|(Hnone & Hno & _)]; [done|].
      destruct Hok as [Hok|[h Hh]]; congruence. }
    destruct (createInstance_registers APP_ROOT id ib w)
      as (h & Hout & Hreg).
    destruct (createInstance APP_ROOT id ib w) as [r w1]. simpl in *.
    subst r. simpl. by eexists.
  - intros Hno Hnone. unfold createInstanceCall. by rewrite Hnone, Hno.
Qed.

(** X23.  [DELETE /instance/:id], for a non-empty id: the answer is 200
    exactly when the id was registered, and 404 "Instance not found" with
    nothing changed otherwise; in both cases the id is not registered
    afterwards. *)
Theorem deleteRoute_reports_registration (id : string) (w : World) :
  id ≠ "" →
  (code (fst (deleteRoute id w)) = 200 ↔ is_Some (instances w !! id)) ∧
  (instances w !! id = None →
   deleteRoute id w
   = ({| code := 404; body := BError "Instance not found" None |}, w)) ∧
  instances (snd (deleteRoute id w)) !! id = None.
Proof.
  intros Hne. unfold deleteRoute. rewrite (missingId_false id Hne).
  unfold deleteInstance. destruct (instances w !! id) as [h|] eqn:Hget; simpl.
  - split; [split; [by eexists|done]|]. split; [done|].
    apply lookup_delete_eq.
  - split; [split; [done|by intros [? ?]]|]. done.
Qed.

(** X24.  [GET /qr/:id], for a non-empty id, has a side effect: an
    instance is created when there was none.  If the id was registered,
    or the library accepts it as a client id, it is registered when the
    handler answers.  The answer is 200 only if the client has no [info],
    a non-empty QR challenge is stored for the id and the encoder
    succeeded on it, and then the body is the encoded image of that
    challenge.  If the id is not registered and the library refuses it,
    the answer is 500 "Failed to generate QR image." with the library's
    error as details, and nothing has changed. *)
Theorem qrRoute_creates_and_serves
    (APP_ROOT : Path) (id : string) (ib : InitBehaviour)
    (toDataURL : string → Outcome string) (w : World) :
  id ≠ "" →
  let r := qrRoute APP_ROOT id ib toDataURL w in
  (localAuthAccepts id = true ∨ is_Some (instances w !! id) →
   is_Some (instances (snd r) !! id)) ∧
  (code (fst r) = 200 →
   ∃ h qr img,
     instances (snd r) !! id = Some h ∧
     clients (snd r) !! h ≫= info = None ∧
     qrCodes (snd r) !! id = Some qr ∧ qr ≠ "" ∧
     toDataURL qr = Fulfilled img ∧
     body (fst r) = BQrImage img) ∧
  (localAuthAccepts id = false → instances w !! id = None →
   r = ({| code := 500;
           body := BError "Failed to generate QR image."
                     (Some invalidClientId) |}, w)).
Proof.
  intros Hne r.
  assert (∀ w1 h, instances w1 !! id = Some h →
            snd (qrAnswer id toDataURL w1) = w1 ∧
            (code (fst (qrAnswer id toDataURL w1)) = 200 →
             ∃ h qr img,
               instances w1 !! id = Some h ∧
               clients w1 !! h ≫= info = None ∧
               qrCodes w1 !! id = Some qr ∧ qr ≠ "" ∧
               toDataURL qr = Fulfilled img ∧
               body (fst (qrAnswer id toDataURL w1)) = BQrImage img))
    as Hanswer.
  { intros w1 h Hh. unfold qrAnswer. rewrite Hh.
    destruct (bool_decide (is_Some (clients w1 !! h ≫= info))) eqn:Hconn;
      simpl; [done|].
    apply bool_decide_eq_false in Hconn.
    assert (clients w1 !! h ≫= info = None) as Hnoinfo.
    { destruct (clients w1 !! h ≫= info) eqn:Hi; [|done].
      exfalso. apply Hconn. by eexists. }
    destruct (qrCodes w1 !! id) as [qr|] eqn:Hqr; simpl; [|done].
    destruct (String.eqb qr "") eqn:Hempty; simpl; [done|].
    apply String.eqb_neq in Hempty.
    destruct (toDataURL qr) as [img|err] eqn:Himg; simpl; [|done].
    split; [done|]. intros _. by exists h, qr, img. }
  subst r. unfold qrRoute. rewrite (missingId_false id Hne).
  destruct (instances w !! id) as [h|] eqn:Hget.
  - destruct (Hanswer w h Hget) as [Hw H200].
    split; [|split; [|done]].
    + intros _. rewrite Hw. by eexists.
    + intros Hcode. destruct (H200 Hcode) as (h' & qr & img & H).
      exists h', qr, img. by rewrite Hw.
  - unfold createInstanceCall. rewrite Hget.
    destruct (localAuthAccepts id) eqn:Hacc.
    + destruct (createInstance_registers APP_ROOT id ib w)
        as (h & Hout & Hreg).
      destruct (createInstance APP_ROOT id ib w) as [o w1]. simpl in *.
      subst o. destruct (Hanswer w1 h Hreg) as [Hw H200].
      split; [|split; [|done]].
      * intros _. rewrite Hw. by eexists.
      * intros Hcode. destruct (H200 Hcode) as (h' & qr & img & H).
        exists h', qr, img. by rewrite Hw.
    + simpl. split; [|split; [done|done]].
      intros [?|[? ?]]; done.
Qed.

(** ** Memory cleanup *)

Lemma world_enqueue {W E : Type} (f : @Task W E) (s : QState W E) :
  world (snd (enqueue f s)) = world s.
Proof.
  unfold enqueue, processQueue. simpl. destruct (queueRunning s); [done|].
  unfold loopHead. simpl. by destruct (instanceQueue s ++ _).
Qed.

Lemma world_resetInstance APP_ROOT id s :
  world (snd (resetInstance APP_ROOT id s)) = world s.
Proof. apply world_enqueue. Qed.

Lemma cleanupSweep_cons APP_ROOT id h entries s :
  cleanupSweep APP_ROOT ((id, h) :: entries) s
  = cleanupSweep APP_ROOT entries
      (if hasWid h (world s) then s
       else snd (resetInstance APP_ROOT id s)).
Proof. reflexivity. Qed.

Lemma cleanupTargets_cons id h entries w :
  cleanupTargets ((id, h) :: entries) w
  = if hasWid h w then cleanupTargets entries w
    else id :: cleanupTargets entries w.
Proof. unfold cleanupTargets. simpl. by destruct (hasWid h w). Qed.

Lemma cleanupSweep_targets APP_ROOT entries :
  ∀ s, cleanupSweep APP_ROOT entries s
       = foldl (λ s id, snd (resetInstance APP_ROOT id s)) s
           (cleanupTargets entries (world s)) ∧
       world (cleanupSweep APP_ROOT entries s) = world s.
Proof.
  induction entries as [|[id h] entries IH]; intros s; [done|].
  rewrite cleanupSweep_cons, cleanupTargets_cons.
  destruct (hasWid h (world s)) eqn:Hwid; [apply IH|].
  destruct (IH (snd (resetInstance APP_ROOT id s))) as [IH1 IH2].
  rewrite world_resetInstance in IH1, IH2. split; [by rewrite IH1 | done].
Qed.

Lemma elem_of_cleanupTargets entries w id :
  id ∈ cleanupTargets entries w ↔
  ∃ h, (id, h) ∈ entries ∧ hasWid h w = false.
Proof.
  induction entries as [|[id0 h0] entries IH].
  - split; [intros H; by apply elem_of_nil in H|].
    intros (h & H & _). by apply elem_of_nil in H.
  - rewrite cleanupTargets_cons. destruct (hasWid h0 w) eqn:Hwid.
    + rewrite IH. split.
      * intros (h & Hin & Hh). exists h. split; [|done].
        by apply elem_of_cons; right.
      * intros (h & Hin & Hh). exists h. split; [|done].
        apply elem_of_cons in Hin as [[= -> ->]|Hin]; [congruence|done].
    + rewrite elem_of_cons, IH. split.
      * intros [->|(h & Hin & Hh)].
        -- exists h0. split; [by apply elem_of_cons; left|done].
        -- exists h. split; [by apply elem_of_cons; right|done].
      * intros (h & Hin & Hh).
        apply elem_of_cons in Hin as [[= -> ->]|Hin]; [by left|].
        right. by exists h.
Qed.

Lemma nextPromise_resets APP_ROOT ids :
  ∀ s, nextPromise (foldl (λ s id, snd (resetInstance APP_ROOT id s)) s ids)
       = nextPromise s + length ids.
Proof.
  induction ids as [|id ids IH]; intros s; [simpl; lia|].
  cbn [foldl length]. rewrite IH. unfold resetInstance.
  destruct (nextPromise_enqueue (resetBody APP_ROOT id) s) as [_ ->]. lia.
Qed.

(** X25.  One firing of the memory cleanup.  With RAM usage at or below 85%
    it does nothing.  Above 85% it calls [resetInstance] once for each
    entry of the Registry whose client has no [wid], in iteration order,
    and for no entry whose client has one, handing out that many promises;
    the Registry, the QR map and the clients are not changed by the firing
    itself, only by the queued resets when they run. *)
Theorem memoryCleanup_targets_idle_instances
    (APP_ROOT : Path) (entries : list (string * Handle))
    (totalMem freeMem : Q) (s : QState World ResetEnv) :
  (0 < totalMem)%Q →
  ((usedRamPercent totalMem freeMem <= 85)%Q →
   memoryCleanup APP_ROOT entries totalMem freeMem s = s) ∧
  ((85 < usedRamPercent totalMem freeMem)%Q →
   memoryCleanup APP_ROOT entries totalMem freeMem s
   = foldl (λ s id, snd (resetInstance APP_ROOT id s)) s
       (cleanupTargets entries (world s)) ∧
   nextPromise (memoryCleanup APP_ROOT entries totalMem freeMem s)
   = nextPromise s + length (cleanupTargets entries (world s))) ∧
  world (memoryCleanup APP_ROOT entries totalMem freeMem s) = world s ∧
  (∀ id, id ∈ cleanupTargets entries (world s) ↔
         ∃ h, (id, h) ∈ entries ∧ hasWid h (world s) = false).
Proof.
  intros _. unfold memoryCleanup.
  destruct (cleanupSweep_targets APP_ROOT entries s) as [Hsweep Hworld].
  split; [|split; [|split]].
  - intros Hle. apply Qgtb_false in Hle. by rewrite Hle.
  - intros Hlt. assert (Qgtb (usedRamPercent totalMem freeMem) 85 = true)
      as ->.
    { destruct (Qgtb (usedRamPercent totalMem freeMem) 85) eqn:Hg; [done|].
      apply Qgtb_false in Hg. by apply Qlt_not_le in Hlt. }
    split; [done|]. rewrite Hsweep. apply nextPromise_resets.
  - by destruct (Qgtb _ _).
  - intros id. apply elem_of_cleanupTargets.
Qed.

(** ** Instances of the statements above *)

Lemma operations_leave_other_ids_alone_witness :
  sameAt "bob" demoRun (snd (resetBody demoRoot "alice" lockedReset demoRun)).
Proof.
  apply (operations_leave_other_ids_alone demoRoot ∅ demoOps "alice" "bob").
  discriminate.
Defined.

Lemma ensureDir_creates_missing_ancestors_witness :
  (∃ w', ensureDir (SESSIONS_PATH demoRoot) false emptyWorld = Some w' ∧
         existsSync (SESSIONS_PATH demoRoot) w' = true ∧
         existsSync demoRoot w' = true) ∧
  ensureDir (SESSIONS_PATH demoRoot) true emptyWorld = None.
Proof.
  split.
  - eexists. split; [reflexivity|].
    destruct (ensureDir_creates_missing_ancestors (SESSIONS_PATH demoRoot)
                false emptyWorld) as (_ & _ & Hdone); [discriminate|].
    destruct (Hdone _ eq_refl) as (Hthere & _ & Hanc & _).
    split; [exact Hthere|].
    apply existsSync_true_iff, Hanc;
      [reflexivity | discriminate | by exists [".wwebjs_auth"]].
  - destruct (ensureDir_creates_missing_ancestors (SESSIONS_PATH demoRoot)
                true emptyWorld) as (_ & Hthrows & _); [discriminate|].
    by apply Hthrows.
Defined.



Lemma disconnect_deregisters_witness :
  getStatus "alice" (emit 0 (EvDisconnected "NAVIGATION") demoRun) = JNull.
Proof.
  destruct (disconnect_deregisters demoRoot ∅ demoOps "alice" 0
              (EvDisconnected "NAVIGATION") quietInit)
    as (_ & _ & Hstatus & _).
  - vm_compute. reflexivity.
  - exists "NAVIGATION". left. reflexivity.
  - exact Hstatus.
Defined.

Lemma ready_keeps_qr_code_witness :
  getQRCode "alice" (emit 0 EvReady (emit 0 (EvQr "2@challenge") aliceWorld))
  = getQRCode "alice" (emit 0 (EvQr "2@challenge") aliceWorld).
Proof.
  apply (ready_keeps_qr_code 0 EvReady
           (emit 0 (EvQr "2@challenge") aliceWorld)).
  left. reflexivity.
Defined.

Lemma latest_qr_wins_witness :
  getQRCode "alice"
    (clientActs 0 [Emit (EvQr "2@first"); Emit (EvQr "2@second")] aliceWorld)
  = Some "2@second".
Proof.
  apply (latest_qr_wins 0
           {| boundId := "alice"; authDataPath := SESSIONS_PATH demoRoot;
              info := None; isInitializing := true |}
           ["2@first"; "2@second"] aliceWorld).
  reflexivity.
Defined.

Lemma queue_promise_settles_once_witness :
  settled
    (run ([Enqueue rejectingTask; FnSettles 0 ()]
          ++ [Tick 500; TimerFires 0; Enqueue fulfillingTask;
              FnSettles 0 ()])
       (initQ ()))
  !! 0 = Some (Rejected "boom").
Proof.
  apply (queue_promise_settles_once ()
           [Enqueue rejectingTask; FnSettles 0 ()]
           [Tick 500; TimerFires 0; Enqueue fulfillingTask; FnSettles 0 ()]
           0 (Rejected "boom")).
  reflexivity.
Defined.

Lemma restartInstance_builds_new_client_witness :
  fst (restartInstanceTurns demoRoot "alice" lockedReset bobTurns
         (withQrCodes (insert "bob" "2@bob")) failingInit aliceWorld)
  = Fulfilled JUndefined ∧
  instances
    (snd (restartInstanceTurns demoRoot "alice" lockedReset bobTurns
            (withQrCodes (insert "bob" "2@bob")) failingInit aliceWorld))
  !! "alice" = Some 1.
Proof.
  destruct (restartInstance_builds_new_client demoRoot "alice" lockedReset
              bobTurns (withQrCodes (insert "bob" "2@bob")) failingInit
              aliceWorld) as [Hok _].
  - intros n. by apply keepsOut_other_qr.
  - by apply keepsOut_other_qr.
  - by apply keepsOut_other_qr.
  - destruct (Hok eq_refl) as (Hout & Hreg & _).
    split; [exact Hout | exact Hreg].
Defined.

Lemma resetRoute_always_404_witness :
  code (fst (resetRoute demoRoot "alice" lockedReset lateQr aliceWorld))
  = 404.
Proof.
  destruct (resetRoute_always_404 demoRoot "alice" lockedReset lateQr
              aliceWorld) as (Hresp & _); [discriminate|].
  by rewrite Hresp.
Defined.


Lemma createRoute_answers_witness :
  code (fst (createRoute demoRoot "alice" failingInit demoWorld)) = 200 ∧
  code (fst (createRoute demoRoot "a b" quietInit demoWorld)) = 500.
Proof.
  split.
  - destruct (createRoute_answers demoRoot "alice" failingInit demoWorld)
      as (Hok & _); [discriminate|].
    destruct Hok as (Hresp & _); [by left|]. by rewrite Hresp.
  - destruct (createRoute_answers demoRoot "a b" quietInit demoWorld)
      as (_ & Hrefused); [discriminate|].
    by rewrite Hrefused.
Defined.

Lemma deleteRoute_reports_registration_witness :
  deleteRoute "ghost" demoWorld
  = ({| code := 404; body := BError "Instance not found" None |}, demoWorld).
Proof.
  destruct (deleteRoute_reports_registration "ghost" demoWorld)
    as (_ & Hmiss & _); [discriminate|].
  apply Hmiss. reflexivity.
Defined.

Lemma qrRoute_creates_and_serves_witness :
  is_Some (instances
             (snd (qrRoute demoRoot "alice" failingInit demoEncoder demoWorld))
           !! "alice").
Proof.
  destruct (qrRoute_creates_and_serves demoRoot "alice" failingInit
              demoEncoder demoWorld) as (Hreg & _); [discriminate|].
  apply Hreg. by left.
Defined.

Lemma memoryCleanup_targets_idle_instances_witness :
  memoryCleanup demoRoot [("alice", 0)] 16 8 (initQ aliceWorld)
  = initQ aliceWorld.
Proof.
  destruct (memoryCleanup_targets_idle_instances demoRoot [("alice", 0)]
              16 8 (initQ aliceWorld)) as (Hcalm & _); [reflexivity|].
  apply Hcalm. vm_compute. discriminate.
Defined.

(** With a challenge stored and no identity yet, the QR route serves the
    encoded challenge. *)
Example qrRoute_serves_stored_challenge :
  fst (qrRoute demoRoot "alice" quietInit demoEncoder
         (emit 0 (EvQr "2@challenge") aliceWorld))
  = {| code := 200;
       body := BQrImage "data:image/png;base64,2@challenge" |}.
Proof. vm_compute. reflexivity. Qed.

(** At 93.75% RAM usage the idle instance is handed to the queue, and its
    reset begins at once. *)
Example memoryCleanup_sheds_idle_instance :
  let s := memoryCleanup demoRoot [("alice", 0)] 16 1 (initQ aliceWorld) in
  nextPromise s = 1 ∧ history s = [Began 0 0] ∧ queueRunning s = true.
Proof. vm_compute. repeat split; reflexivity. Qed.
